(** * smartto: room lifecycle and role assignment of [server.js]

    A shallow embedding of the WebSocket lobby server.  The server keeps a
    process-wide [rooms] registry (a JS [Map] from room code to room object);
    every connection closure holds its own [playerId] and a [currentRoom]
    reference to a room object.  Room objects are shared between the registry
    and the closures, so rooms live in a heap and are named by their
    allocation index.

    The environment is explicit: every event carries the value returned by
    [Date.now()] and the values returned by the calls to [Math.random()]
    made while the handler runs.  A socket is [OPEN] from its connection
    until its [close] event; no message is handled after that event. *)

From stdpp Require Import base numbers option list gmap strings pretty.

Local Open Scope Z_scope.

(** ** The JS [Map], in insertion order *)

Module JsMap.
Section ops.
Context {V : Type}.

Definition t := list (string * V).

Definition keys (m : t) : list string := m.*1.
Definition values (m : t) : list V := m.*2.
Definition size (m : t) : nat := length m.

Fixpoint get (k : string) (m : t) : option V :=
  match m with
  | [] => None
  | (k', v) :: m' => if decide (k = k') then Some v else get k m'
  end.

(** [set] on a present key replaces the value and keeps the position;
    on an absent key it appends. *)
Fixpoint set (k : string) (v : V) (m : t) : t :=
  match m with
  | [] => [(k, v)]
  | (k', v') :: m' =>
      if decide (k = k') then (k, v) :: m' else (k', v') :: set k v m'
  end.

Fixpoint delete (k : string) (m : t) : t :=
  match m with
  | [] => []
  | (k', v') :: m' =>
      if decide (k = k') then m' else (k', v') :: delete k m'
  end.
End ops.
Arguments t : clear implicits.
End JsMap.

(** ** Data model *)

(** An entry of [room.roles]: [{ name, count }].  The inner loop
    [for (let i = 0; i < role.count; i++)] runs [count] times. *)
Record role := Role { name : string; count : nat }.

(** A value of [room.players]: [{ id, ws, joinTime }].  The socket object is
    named by the index of its connection. *)
Record player := Player { id : string; ws : nat; joinTime : Z }.

Record room := Room {
  code : string;
  host : option string;          (* [null] is [None] *)
  maxPlayers : Z;
  roles : list role;
  players : JsMap.t player;
  gameStarted : bool
}.

Definition set_host (h : option string) (r : room) : room :=
  Room (code r) h (maxPlayers r) (roles r) (players r) (gameStarted r).
Definition set_players (ps : JsMap.t player) (r : room) : room :=
  Room (code r) (host r) (maxPlayers r) (roles r) ps (gameStarted r).
Definition set_settings (mp : Z) (rs : list role) (r : room) : room :=
  Room (code r) (host r) mp rs (players r) (gameStarted r).
Definition set_gameStarted (b : bool) (r : room) : room :=
  Room (code r) (host r) (maxPlayers r) (roles r) (players r) b.

(** The state of one connection closure: [playerId], [currentRoom], and
    whether [ws.readyState === WebSocket.OPEN]. *)
Record session := Session {
  playerId : string;
  currentRoom : option nat;
  ws_open : bool
}.

Record state := State {
  rooms : gmap string nat;       (* the registry: code to room object *)
  heap : list room;              (* every room object ever allocated *)
  sessions : list session        (* one closure per accepted connection *)
}.

Definition init : state := State ∅ [] [].

(** ** Messages

    [data] after [JSON.parse], by its [type].  [otherMsg] stands for any
    other [type]: the [switch] has no case for it.  The [playerId] carried
    by [updateSettings] and [startGame] is a field of the message. *)

Inductive client_msg :=
| createRoomMsg
| joinRoomMsg (roomCode : string)
| leaveRoomMsg
| updateSettingsMsg (pid : string) (mp : Z) (rs : list role)
| startGameMsg (pid : string)
| otherMsg.

Inductive server_msg :=
| roomCreated (roomCode pid : string) (isHost : bool)
| roomJoined (roomCode pid : string) (isHost : bool)
| error (message : string)
| gameResult (role_ : option string)
| gameState (roomCode : string) (mp : Z) (rs : list role)
            (currentPlayers : nat) (started : bool)
            (hostId : option string) (isHost : bool).

(** What a handler sends: the socket and the message, in order. *)
Definition output := list (nat * server_msg).

Inductive event :=
| Connect (now : Z)
| Message (conn : nat) (data : client_msg) (now : Z) (draws : list Z)
| Close (conn : nat).

(** ** Randomness

    A draw [d] stands for the result [(d mod 2^53) / 2^53] of one call to
    [Math.random()], a number in [0, 1).  Products and floors are taken
    exactly; the rounding of binary64 is not modelled. *)

Definition two53 : Z := 2 ^ 53.

(** [Math.floor(Math.random() * n)] *)
Definition random_below (d : Z) (n : Z) : Z := ((d `mod` two53) * n) `div` two53.

(** [Math.floor(1000 + Math.random() * 9000).toString()] *)
Definition code_of_draw (d : Z) : string := pretty (1000 + random_below d 9000).

(** ** [createRoom] *)

Definition createRoom (roomCode : string) : room :=
  Room roomCode None 5 [Role "당첨" 3; Role "꽝" 2] [] false.

(** ** [generateRoomCode]

    The [do ... while (rooms.has(code))] loop reads one draw per iteration.
    [None]: every supplied draw collided, the loop is still running. *)
Fixpoint generateRoomCode (rms : gmap string nat) (draws : list Z)
  : option (string * list Z) :=
  match draws with
  | [] => None
  | d :: draws' =>
      let c := code_of_draw d in
      if decide (is_Some (rms !! c)) then generateRoomCode rms draws'
      else Some (c, draws')
  end.

(** ** [broadcastGameState] *)

Definition readyState_open (ss : list session) (w : nat) : bool :=
  match ss !! w with
  | Some s => ws_open s
  | None => false
  end.

Definition is_host (r : room) (p : string) : bool := bool_decide (host r = Some p).

Definition broadcastGameState (ss : list session) (r : room) : output :=
  omap (λ p : player,
          if readyState_open ss (ws p)
          then Some (ws p, gameState (code r) (maxPlayers r) (roles r)
                            (JsMap.size (players r)) (gameStarted r) (host r)
                            (is_host r (id p)))
          else None)
       (JsMap.values (players r)).

(** ** Host succession

    [Array.from(players.values()).sort((a, b) => a.joinTime - b.joinTime)[0]]
    with the stable sort of the language: among equal join times the earlier
    entry of the map stays first. *)

Fixpoint insert_sorted (p : player) (l : list player) : list player :=
  match l with
  | [] => [p]
  | q :: l' =>
      if joinTime p <=? joinTime q then p :: q :: l'
      else q :: insert_sorted p l'
  end.

Definition sort_by_joinTime (l : list player) : list player :=
  foldr insert_sorted [] l.

(** The body shared by the [leaveRoom] case and the [close] handler, on the
    room object: delete the player, then hand the host over. *)
Definition leave_room (pid : string) (r : room) : room :=
  let r1 := set_players (JsMap.delete pid (players r)) r in
  if bool_decide (host r1 = Some pid) && bool_decide (0 < JsMap.size (players r1))%nat
  then match sort_by_joinTime (JsMap.values (players r1)) with
       | oldestPlayer :: _ => set_host (Some (id oldestPlayer)) r1
       | [] => r1
       end
  else r1.

(** ** Role assignment (the two loops of the [startGame] case) *)

(** [currentRoom.roles.forEach(role => { for (...) allRoles.push(role.name) })] *)
Definition expand_roles (rs : list role) : list string :=
  flat_map (λ r, replicate (count r) (name r)) rs.

(** The loop over [players]: one draw per player; [allRoles[randomIndex]] is
    [undefined] ([None]) on the empty array and [splice] then removes
    nothing.  [None]: fewer draws than iterations were supplied. *)
Fixpoint assign_loop (ps : list string) (allRoles : list string)
    (assignments : JsMap.t (option string)) (draws : list Z)
  : option (JsMap.t (option string) * list Z) :=
  match ps with
  | [] => Some (assignments, draws)
  | p :: ps' =>
      match draws with
      | [] => None
      | d :: draws' =>
          let randomIndex := Z.to_nat (random_below d (Z.of_nat (length allRoles))) in
          assign_loop ps' (delete randomIndex allRoles)
            (JsMap.set p (allRoles !! randomIndex) assignments) draws'
      end
  end.

Definition assignRoles (ps : list string) (rs : list role) (draws : list Z)
  : option (JsMap.t (option string) * list Z) :=
  assign_loop ps (expand_roles rs) [] draws.

(** [assignments.get(pid)]: [undefined] both for an absent key and for a
    stored [undefined]. *)
Definition assigned (a : JsMap.t (option string)) (p : string) : option string :=
  mjoin (JsMap.get p a).

Definition sendResults (ss : list session) (r : room)
    (a : JsMap.t (option string)) : output :=
  omap (λ kv : string * player,
          if readyState_open ss (ws kv.2)
          then Some (ws kv.2, gameResult (assigned a kv.1))
          else None)
       (players r).

(** ** The handlers *)

(** [rooms.get(roomCode)] followed by the room object itself. *)
Definition find_room (σ : state) (roomCode : string) : option (nat * room) :=
  ref ← rooms σ !! roomCode; r ← heap σ !! ref; Some (ref, r).

Definition set_currentRoom (conn : nat) (cr : option nat) (ss : list session)
  : list session :=
  match ss !! conn with
  | Some s => <[conn := Session (playerId s) cr (ws_open s)]> ss
  | None => ss
  end.

Definition set_closed (conn : nat) (ss : list session) : list session :=
  match ss !! conn with
  | Some s => <[conn := Session (playerId s) (currentRoom s) false]> ss
  | None => ss
  end.

Definition err_not_found : string := "존재하지 않는 방 코드입니다.".
Definition err_started : string := "이미 게임이 시작된 방입니다.".
Definition err_full : string := "방이 가득 찼습니다.".

(** [case 'createRoom'] *)
Definition handle_createRoom (σ : state) (conn : nat) (s : session)
    (now : Z) (draws : list Z) : option (state * output) :=
  '(roomCode, _) ← generateRoomCode (rooms σ) draws;
  let newRoom := set_host (Some (playerId s)) (createRoom roomCode) in
  let newRoom :=
    set_players (JsMap.set (playerId s) (Player (playerId s) conn now)
                           (players newRoom)) newRoom in
  let ref := length (heap σ) in
  Some (State (<[roomCode := ref]> (rooms σ)) (heap σ ++ [newRoom])
              (set_currentRoom conn (Some ref) (sessions σ)),
        (conn, roomCreated roomCode (playerId s) true)
          :: broadcastGameState (sessions σ) newRoom).

(** [case 'joinRoom'] *)
Definition handle_joinRoom (σ : state) (conn : nat) (s : session)
    (roomCode : string) (now : Z) : state * output :=
  match find_room σ roomCode with
  | None => (σ, [(conn, error err_not_found)])
  | Some (ref, r) =>
      if gameStarted r then (σ, [(conn, error err_started)])
      else if bool_decide (maxPlayers r ≤ Z.of_nat (JsMap.size (players r)))
      then (σ, [(conn, error err_full)])
      else
        let r' := set_players
                    (JsMap.set (playerId s) (Player (playerId s) conn now) (players r)) r in
        (State (rooms σ) (<[ref := r']> (heap σ))
               (set_currentRoom conn (Some ref) (sessions σ)),
         (conn, roomJoined roomCode (playerId s) (is_host r' (playerId s)))
           :: broadcastGameState (sessions σ) r')
  end.

(** The body of [if (currentRoom) { ... }] common to [case 'leaveRoom'] and
    to the [close] handler, up to the final [currentRoom = null]. *)
Definition leave (σ : state) (pid : string) (ref : nat) : state * output :=
  match heap σ !! ref with
  | None => (σ, [])
  | Some r =>
      let r' := leave_room pid r in
      let heap' := <[ref := r']> (heap σ) in
      if bool_decide (JsMap.size (players r') = 0%nat)
      then (State (delete (code r') (rooms σ)) heap' (sessions σ), [])
      else (State (rooms σ) heap' (sessions σ), broadcastGameState (sessions σ) r')
  end.

Definition with_sessions (f : list session → list session) (σ : state) : state :=
  State (rooms σ) (heap σ) (f (sessions σ)).

(** [case 'leaveRoom'] *)
Definition handle_leaveRoom (σ : state) (conn : nat) (s : session)
  : state * output :=
  match currentRoom s with
  | None => (σ, [])
  | Some ref =>
      let '(σ', out) := leave σ (playerId s) ref in
      (with_sessions (set_currentRoom conn None) σ', out)
  end.

(** [ws.on('close', ...)]: the socket is no longer open when it runs. *)
Definition handle_close (σ : state) (conn : nat) (s : session) : state * output :=
  let σ0 := with_sessions (set_closed conn) σ in
  match currentRoom s with
  | None => (σ0, [])
  | Some ref => leave σ0 (playerId s) ref
  end.

(** [case 'updateSettings'] *)
Definition handle_updateSettings (σ : state) (s : session)
    (pid : string) (mp : Z) (rs : list role) : state * output :=
  match currentRoom s with
  | None => (σ, [])
  | Some ref =>
      match heap σ !! ref with
      | None => (σ, [])
      | Some r =>
          if bool_decide (host r = Some pid) then
            let r' := set_settings mp rs r in
            (State (rooms σ) (<[ref := r']> (heap σ)) (sessions σ),
             broadcastGameState (sessions σ) r')
          else (σ, [])
      end
  end.

(** [case 'startGame'] *)
Definition handle_startGame (σ : state) (s : session)
    (pid : string) (draws : list Z) : option (state * output) :=
  match currentRoom s with
  | None => Some (σ, [])
  | Some ref =>
      match heap σ !! ref with
      | None => Some (σ, [])
      | Some r =>
          if bool_decide (host r = Some pid) && negb (gameStarted r) then
            let r' := set_gameStarted true r in
            '(assignments, _) ← assignRoles (JsMap.keys (players r')) (roles r') draws;
            Some (State (rooms σ) (<[ref := r']> (heap σ)) (sessions σ),
                  sendResults (sessions σ) r' assignments
                    ++ broadcastGameState (sessions σ) r')
          else Some (σ, [])
      end
  end.

(** ** One event of the server

    [None]: the event has no completed run in [σ]: the connection does not
    exist or is already closed, or the handler needs more draws than the
    event supplies. *)
Definition step (σ : state) (ev : event) : option (state * output) :=
  match ev with
  | Connect now =>
      Some (with_sessions (λ ss, ss ++ [Session (pretty now) None true]) σ, [])
  | Message conn data now draws =>
      s ← sessions σ !! conn;
      if ws_open s then
        match data with
        | createRoomMsg => handle_createRoom σ conn s now draws
        | joinRoomMsg roomCode => Some (handle_joinRoom σ conn s roomCode now)
        | leaveRoomMsg => Some (handle_leaveRoom σ conn s)
        | updateSettingsMsg pid mp rs => Some (handle_updateSettings σ s pid mp rs)
        | startGameMsg pid => handle_startGame σ s pid draws
        | otherMsg => Some (σ, [])
        end
      else None
  | Close conn =>
      s ← sessions σ !! conn;
      if ws_open s then Some (handle_close σ conn s) else None
  end.

(** A run of events from a state, with everything that was sent. *)
Fixpoint run (σ : state) (evs : list event) : option (state * output) :=
  match evs with
  | [] => Some (σ, [])
  | ev :: evs' =>
      '(σ1, out1) ← step σ ev;
      '(σ2, out2) ← run σ1 evs';
      Some (σ2, out1 ++ out2)
  end.

Inductive reachable : state → Prop :=
| reachable_init : reachable init
| reachable_step σ ev σ' out :
    reachable σ → step σ ev = Some (σ', out) → reachable σ'.

(** ** Vocabulary of the properties *)

(** Total number of labels of a pool, and the number configured for one name
    (entries with the same name add up). *)
Definition total_count (rs : list role) : nat := sum_list (count <$> rs).
Definition configured (nm : string) (rs : list role) : nat :=
  sum_list (count <$> filter (λ r, name r = nm) rs).
Definition occurrences (nm : string) (l : list string) : nat :=
  length (filter (λ x, x = nm) l).


(** The map is keyed by the [id] of its values, without repeated keys. *)
Definition wf_room (r : room) : Prop :=
  NoDup (JsMap.keys (players r)) ∧ Forall (λ kv, id kv.2 = kv.1) (players r).

(** The room has a member and its host is one of them. *)
Definition room_ok (r : room) : Prop :=
  (0 < JsMap.size (players r))%nat ∧
  ∃ h p, host r = Some h ∧ JsMap.get h (players r) = Some p ∧ id p = h.

(** Every registered room is stored under its own code and is [room_ok]. *)
Definition registry_ok (σ : state) : Prop :=
  ∀ c ref, rooms σ !! c = Some ref →
    ∃ r, heap σ !! ref = Some r ∧ code r = c ∧ room_ok r.

Definition inv (σ : state) : Prop :=
  Forall wf_room (heap σ) ∧ registry_ok σ.

Definition is_leave (conn : nat) (ev : event) : Prop :=
  (∃ now draws, ev = Message conn leaveRoomMsg now draws) ∨ ev = Close conn.


(** The connection an event belongs to. *)
Definition event_conn (ev : event) : option nat :=
  match ev with
  | Connect _ => None
  | Message conn _ _ _ | Close conn => Some conn
  end.



(** The roles revealed by [gameResult] messages, with their sockets. *)
Definition results_of (out : output) : list (nat * option string) :=
  omap (λ wm : nat * server_msg,
          match wm.2 with gameResult ro => Some (wm.1, ro) | _ => None end) out.

(** One entry per member whose socket is open: the socket and the role the
    assignment holds for the member's key. *)
Definition own_results (ss : list session) (r : room)
    (a : JsMap.t (option string)) : list (nat * option string) :=
  omap (λ kv : string * player,
          if readyState_open ss (ws kv.2)
          then Some (ws kv.2, assigned a kv.1) else None)
       (players r).


(** A draw on which [code_of_draw] yields the code of [n]. *)
Definition draw_for (n : Z) : Z := ((n - 1000) * two53 + 8999) `div` 9000.

(** ** Scenarios

    Concrete runs of the server, used to exercise the statements below. *)

Definition default_roles : list role := [Role "당첨" 3; Role "꽝" 2].

(** Three connections; the first creates room 1000, the others join it. *)
Definition lobby_trace : list event :=
  [Connect 1; Connect 2; Connect 3;
   Message 0 createRoomMsg 10 [0];
   Message 1 (joinRoomMsg "1000") 11 [];
   Message 2 (joinRoomMsg "1000") 12 []].

Definition lobby_room : room :=
  Room "1000" (Some "1") 5 default_roles
       [("1", Player "1" 0 10); ("2", Player "2" 1 11); ("3", Player "3" 2 12)]
       false.

Definition lobby : state :=
  State {[ "1000" := 0%nat ]} [lobby_room]
        [Session "1" (Some 0%nat) true; Session "2" (Some 0%nat) true;
         Session "3" (Some 0%nat) true].

(** Two connections in one room whose host has set the pool to one A and
    one B. *)
Definition duo_trace : list event :=
  [Connect 1; Connect 2;
   Message 0 createRoomMsg 10 [0];
   Message 1 (joinRoomMsg "1000") 11 [];
   Message 0 (updateSettingsMsg "1" 2 [Role "A" 1; Role "B" 1]) 12 []].

Definition duo_room : room :=
  Room "1000" (Some "1") 2 [Role "A" 1; Role "B" 1]
       [("1", Player "1" 0 10); ("2", Player "2" 1 11)] false.

Definition duo : state :=
  State {[ "1000" := 0%nat ]} [duo_room]
        [Session "1" (Some 0%nat) true; Session "2" (Some 0%nat) true].

(** The same two connections, the pool set to a single A. *)
Definition short_pool_trace : list event :=
  [Connect 1; Connect 2;
   Message 0 createRoomMsg 10 [0];
   Message 1 (joinRoomMsg "1000") 11 [];
   Message 0 (updateSettingsMsg "1" 2 [Role "A" 1]) 12 []].

Definition short_pool : state :=
  State {[ "1000" := 0%nat ]}
        [Room "1000" (Some "1") 2 [Role "A" 1]
              [("1", Player "1" 0 10); ("2", Player "2" 1 11)] false]
        [Session "1" (Some 0%nat) true; Session "2" (Some 0%nat) true].


Definition absent_host : state :=
  State {[ "1000" := 0%nat ]}
        [Room "1000" (Some "1") 5 default_roles
              [("1", Player "1" 0 10); ("2", Player "2" 1 11)] false;
         Room "1001" (Some "1") 5 default_roles [] false]
        [Session "1" (Some 1%nat) false; Session "2" (Some 0%nat) true].

(** A room of one whose game has started. *)
Definition started_trace : list event :=
  [Connect 1;
   Message 0 createRoomMsg 10 [0];
   Message 0 (startGameMsg "1") 11 [0]].

Definition started : state :=
  State {[ "1000" := 0%nat ]}
        [Room "1000" (Some "1") 5 default_roles [("1", Player "1" 0 10)] true]
        [Session "1" (Some 0%nat) true].


(** ** [getIPAddresses]

    [os.networkInterfaces()] is an object from interface names to arrays of
    address records; [for ... in] visits its keys in the order given here.
    Both loops push onto [addresses]. *)

Record address_info := AddressInfo {
  address : string;
  family : string;
  internal : bool
}.

Definition push_if_external (addresses : list string) (a : address_info)
  : list string :=
  if bool_decide (family a = "IPv4") && negb (internal a)
  then addresses ++ [address a] else addresses.

Definition getIPAddresses (interfaces : list (string * list address_info))
  : list string :=
  foldl (λ addresses iface, foldl push_if_external addresses iface.2) [] interfaces.

(** ** More vocabulary *)

(** How a room object may differ between two states of a run. *)
Definition room_evolves (r r' : room) : Prop :=
  code r' = code r
  ∧ (gameStarted r = true →
     gameStarted r' = true ∧ JsMap.keys (players r') ⊆ JsMap.keys (players r)).

(** The values [Date.now()] returned when the connections of a run were
    accepted, in order. *)
Definition connect_times (evs : list event) : list Z :=
  omap (λ ev, match ev with Connect now => Some now | _ => None end) evs.

(** Every room object that has a member is the one registered under its
    code. *)
Definition members_registered (σ : state) : Prop :=
  ∀ ref r, heap σ !! ref = Some r → players r ≠ [] →
    rooms σ !! code r = Some ref.

(** The room object [ref] holds, under the key [pid], a record with that id
    and the socket of connection [conn]. *)
Definition member_at (hp : list room) (ref : nat) (pid : string) (conn : nat)
  : Prop :=
  ∃ r p, hp !! ref = Some r ∧ JsMap.get pid (players r) = Some p
         ∧ id p = pid ∧ ws p = conn.

(** Every open connection with a [currentRoom] is a member of that room,
    under its own [playerId] and with its own socket. *)
Definition attached_is_member (σ : state) : Prop :=
  ∀ conn s ref, sessions σ !! conn = Some s → ws_open s = true →
    currentRoom s = Some ref →
    member_at (heap σ) ref (playerId s) conn.

(** The lobby with a fourth connection that has not joined any room. *)
Definition lobby_plus : state :=
  State (rooms lobby) (heap lobby) (sessions lobby ++ [Session "4" None true]).

(** Two connections accepted at the same [Date.now()], hence with the same
    [playerId], in one room with a third player. *)
Definition twins_trace : list event :=
  [Connect 5; Connect 5; Connect 6;
   Message 0 createRoomMsg 10 [0];
   Message 1 (joinRoomMsg "1000") 11 [];
   Message 2 (joinRoomMsg "1000") 12 []].

Definition twins_room : room :=
  Room "1000" (Some "5") 5 [Role "당첨" 3; Role "꽝" 2]
       [("5", Player "5" 1 11); ("6", Player "6" 2 12)] false.

Definition twins : state :=
  State {[ "1000" := 0%nat ]} [twins_room]
        [Session "5" (Some 0%nat) true; Session "5" (Some 0%nat) true;
         Session "6" (Some 0%nat) true].

(** Whether a message tells its recipient that it is the host. *)
Definition told_host (m : server_msg) : bool :=
  match m with
  | gameState _ _ _ _ _ _ isHost | roomCreated _ _ isHost
  | roomJoined _ _ isHost => isHost
  | _ => false
  end.

Definition host_copies (out : output) : nat :=
  length (filter (λ wm : nat * server_msg, told_host wm.2) out).

(** A registry in which every code of [1000, 9999] is taken. *)
Definition saturated_registry : gmap string nat :=
  list_to_map ((λ n : Z, (pretty n, 0%nat)) <$> seqZ 1000 9000).

(** A machine with a loopback interface and two network cards. *)
Definition sample_interfaces : list (string * list address_info) :=
  [("lo", [AddressInfo "127.0.0.1" "IPv4" true; AddressInfo "::1" "IPv6" true]);
   ("eth0", [AddressInfo "192.168.0.7" "IPv4" false;
             AddressInfo "fe80::1" "IPv6" false]);
   ("wlan0", [AddressInfo "10.0.0.3" "IPv4" false])].

(** * Properties *)

(** ** The insertion-ordered map *)

Section JsMap_facts.
Context {V : Type}.
Implicit Types (m : JsMap.t V) (k : string) (v : V).

Lemma get_Some_elem m k v : JsMap.get k m = Some v → (k, v) ∈ m.
Proof.
  induction m as [|[k' v'] m IH]; simpl; [done|].
  case_decide; intros; simplify_eq; [left | right; auto].
Qed.

Lemma get_None_keys m k : JsMap.get k m = None ↔ k ∉ JsMap.keys m.
Proof.
  unfold JsMap.keys. induction m as [|[k' v'] m IH]; simpl.
  - split; [intros _; apply not_elem_of_nil | done].
  - rewrite not_elem_of_cons. case_decide as Hk.
    + split; [done | by intros [? _]].
    + rewrite IH. split; [by intros ? | by intros [_ ?]].
Qed.

Lemma get_is_Some_keys m k : is_Some (JsMap.get k m) ↔ k ∈ JsMap.keys m.
Proof.
  rewrite <-not_eq_None_Some, get_None_keys.
  split; [apply dec_stable | auto].
Qed.

Lemma elem_get_NoDup m k v :
  NoDup (JsMap.keys m) → (k, v) ∈ m → JsMap.get k m = Some v.
Proof.
  unfold JsMap.keys. induction m as [|[k' v'] m IH]; simpl.
  - intros _ H. by apply elem_of_nil in H.
  - rewrite NoDup_cons, elem_of_cons. intros [Hk Hnd] [Heq | Hin].
    + simplify_eq. by rewrite decide_True.
    + rewrite decide_False; [auto|]. intros ->. apply Hk.
      apply list_elem_of_fmap. by exists (k', v).
Qed.

Lemma set_fresh m k v : k ∉ JsMap.keys m → JsMap.set k v m = m ++ [(k, v)].
Proof.
  unfold JsMap.keys. induction m as [|[k' v'] m IH]; simpl; [done|].
  rewrite not_elem_of_cons. intros [Hne Hk].
  rewrite decide_False by done. by rewrite IH.
Qed.

Lemma get_set_eq m k v : JsMap.get k (JsMap.set k v m) = Some v.
Proof.
  induction m as [|[k' v'] m IH]; simpl.
  - by rewrite decide_True.
  - case_decide; simpl; [by rewrite decide_True | by rewrite decide_False].
Qed.

Lemma get_set_ne m k k' v : k ≠ k' → JsMap.get k' (JsMap.set k v m) = JsMap.get k' m.
Proof.
  intros Hne. induction m as [|[k0 v0] m IH]; simpl.
  - by rewrite decide_False.
  - destruct (decide (k = k0)) as [->|]; simpl.
    + by rewrite !decide_False.
    + case_decide; [done | apply IH].
Qed.

Lemma keys_set_elem m k k' v :
  k' ∈ JsMap.keys (JsMap.set k v m) ↔ k' = k ∨ k' ∈ JsMap.keys m.
Proof.
  rewrite <-!get_is_Some_keys. destruct (decide (k = k')) as [->|Hne].
  - rewrite get_set_eq. split; [by left | by eexists].
  - rewrite get_set_ne by done. split; [by right|].
    by intros [->|?].
Qed.

Lemma set_NoDup m k v : NoDup (JsMap.keys m) → NoDup (JsMap.keys (JsMap.set k v m)).
Proof.
  unfold JsMap.keys. induction m as [|[k' v'] m IH]; simpl.
  - intros _. apply NoDup_singleton.
  - rewrite NoDup_cons. intros [Hk Hnd]. case_decide; simpl.
    + subst. by apply NoDup_cons.
    + apply NoDup_cons. split; [|auto].
      intros Hin. apply (keys_set_elem m k k' v) in Hin as [->|Hin]; done.
Qed.

Lemma set_Forall (P : string * V → Prop) m k v :
  P (k, v) → Forall P m → Forall P (JsMap.set k v m).
Proof.
  intros Hp. induction 1 as [|[k' v'] m Hx Hm IH]; simpl.
  - by constructor.
  - case_decide; constructor; auto.
Qed.

Lemma set_size_le m k v : (JsMap.size m ≤ JsMap.size (JsMap.set k v m))%nat.
Proof.
  unfold JsMap.size. induction m as [|[k' v'] m IH]; simpl; [lia|].
  case_decide; simpl; lia.
Qed.

Lemma delete_sublist m k : sublist (JsMap.delete k m) m.
Proof.
  induction m as [|[k' v'] m IH]; simpl; [done|].
  case_decide; [by apply sublist_cons | by apply sublist_skip].
Qed.

Lemma delete_NoDup m k : NoDup (JsMap.keys m) → NoDup (JsMap.keys (JsMap.delete k m)).
Proof.
  unfold JsMap.keys. intros H. eapply sublist_NoDup; [done|].
  apply fmap_sublist, delete_sublist.
Qed.

Lemma delete_Forall (P : string * V → Prop) m k :
  Forall P m → Forall P (JsMap.delete k m).
Proof.
  rewrite !Forall_forall. intros H x Hx. apply H.
  eapply elem_of_sublist; [done | apply delete_sublist].
Qed.

Lemma get_delete_ne m k k' : k ≠ k' → JsMap.get k' (JsMap.delete k m) = JsMap.get k' m.
Proof.
  intros Hne. induction m as [|[k0 v0] m IH]; simpl; [done|].
  destruct (decide (k = k0)) as [->|]; simpl.
  - by rewrite decide_False.
  - case_decide; [done | apply IH].
Qed.

Lemma delete_absent m k : k ∉ JsMap.keys m → JsMap.delete k m = m.
Proof.
  unfold JsMap.keys. induction m as [|[k' v'] m IH]; simpl; [done|].
  rewrite not_elem_of_cons. intros [Hne Hk].
  rewrite decide_False by done. by rewrite IH.
Qed.
End JsMap_facts.

(** ** The sort behind host succession *)

Section sort_facts.
Implicit Types (p q : player) (l : list player).

Lemma insert_sorted_perm p l : insert_sorted p l ≡ₚ p :: l.
Proof.
  induction l as [|q l IH]; simpl; [done|].
  case_match; [done|]. rewrite IH. apply Permutation_swap.
Qed.

Lemma sort_by_joinTime_perm l : sort_by_joinTime l ≡ₚ l.
Proof.
  induction l as [|p l IH]; simpl; [done|].
  by rewrite insert_sorted_perm, IH.
Qed.

Lemma sort_by_joinTime_nil l : sort_by_joinTime l = [] → l = [].
Proof.
  intros H. apply Permutation_nil_r. rewrite <-H.
  symmetry. apply sort_by_joinTime_perm.
Qed.

(** The first element after sorting joined no later than anyone. *)
Lemma sort_by_joinTime_head l p rest :
  sort_by_joinTime l = p :: rest →
  p ∈ l ∧ ∀ q, q ∈ l → joinTime p ≤ joinTime q.
Proof.
  revert p rest. induction l as [|x l IH]; simpl; [done|].
  intros p rest. destruct (sort_by_joinTime l) as [|q0 rest0] eqn:Hs; simpl.
  - apply sort_by_joinTime_nil in Hs as ->. intros [= <- <-].
    split; [left|]. intros q ->%list_elem_of_singleton. lia.
  - destruct (IH q0 rest0 eq_refl) as [Hin Hmin].
    destruct (joinTime x <=? joinTime q0) eqn:Hle; intros [= <- <-].
    + apply Z.leb_le in Hle. split; [left|].
      intros q [->|Hq]%elem_of_cons; [lia|]. specialize (Hmin q Hq). lia.
    + apply Z.leb_gt in Hle. split; [by right|].
      intros q [->|Hq]%elem_of_cons; [lia | auto].
Qed.
End sort_facts.

(** ** The room after a departure *)

Section leave_room_facts.
Implicit Types (r : room) (pid : string).

Lemma leave_room_players pid r :
  players (leave_room pid r) = JsMap.delete pid (players r).
Proof.
  unfold leave_room. destruct (_ && _); [|done].
  by destruct (sort_by_joinTime _).
Qed.

Lemma leave_room_code pid r : code (leave_room pid r) = code r.
Proof.
  unfold leave_room. destruct (_ && _); [|done].
  by destruct (sort_by_joinTime _).
Qed.

Lemma leave_room_settings pid r :
  maxPlayers (leave_room pid r) = maxPlayers r
  ∧ roles (leave_room pid r) = roles r
  ∧ gameStarted (leave_room pid r) = gameStarted r.
Proof.
  unfold leave_room. destruct (_ && _); [|done].
  by destruct (sort_by_joinTime _).
Qed.

(** A departing non-host leaves the host as it is. *)
Lemma leave_room_host_other pid r :
  host r ≠ Some pid → host (leave_room pid r) = host r.
Proof.
  intros Hne. unfold leave_room. simpl.
  by rewrite bool_decide_eq_false_2.
Qed.

(** A departing host with members left behind: the oldest takes over. *)
Lemma leave_room_host_succession pid r :
  host r = Some pid →
  players (leave_room pid r) ≠ [] →
  ∃ p, p ∈ JsMap.values (players (leave_room pid r))
       ∧ host (leave_room pid r) = Some (id p)
       ∧ ∀ q, q ∈ JsMap.values (players (leave_room pid r)) →
              joinTime p ≤ joinTime q.
Proof.
  intros Hh. rewrite leave_room_players. intros Hne.
  unfold leave_room. simpl. rewrite bool_decide_eq_true_2 by done.
  rewrite bool_decide_eq_true_2
    by (unfold JsMap.size; destruct (JsMap.delete pid (players r)); simpl; [done | lia]).
  simpl. destruct (sort_by_joinTime _) as [|p rest] eqn:Hs.
  - apply sort_by_joinTime_nil in Hs. unfold JsMap.values in Hs.
    by apply fmap_nil_inv in Hs.
  - apply sort_by_joinTime_head in Hs as [Hin Hmin]. by exists p.
Qed.

Lemma leave_room_wf pid r : wf_room r → wf_room (leave_room pid r).
Proof.
  intros [Hnd Hid]. unfold wf_room. rewrite leave_room_players.
  split; [by apply delete_NoDup | by apply delete_Forall].
Qed.

Lemma wf_room_value_get r p :
  wf_room r → p ∈ JsMap.values (players r) → JsMap.get (id p) (players r) = Some p.
Proof.
  intros [Hnd Hid] Hin. unfold JsMap.values in Hin.
  apply list_elem_of_fmap in Hin as ([k p'] & -> & Hin). simpl.
  rewrite Forall_forall in Hid. specialize (Hid _ Hin). simpl in Hid.
  rewrite Hid. by apply elem_get_NoDup.
Qed.

(** While members remain, the room keeps a host among them. *)
Lemma leave_room_ok pid r :
  wf_room r → room_ok r → players (leave_room pid r) ≠ [] →
  room_ok (leave_room pid r).
Proof.
  intros Hwf [_ (h & p & Hh & Hget & Hp)] Hne. split.
  - unfold JsMap.size. destruct (players (leave_room pid r)); simpl; [done | lia].
  - destruct (decide (h = pid)) as [->|Hdiff].
    + destruct (leave_room_host_succession pid r Hh Hne) as (p' & Hin & Hh' & _).
      exists (id p'), p'. split; [done|]. split; [|done].
      by apply wf_room_value_get; [apply leave_room_wf|].
    + exists h, p. rewrite leave_room_host_other by congruence.
      rewrite leave_room_players, get_delete_ne by done. done.
Qed.
End leave_room_facts.

(** ** The registry invariant *)

Section invariant.
Implicit Types (σ : state) (r : room) (ss : list session).

Lemma find_room_Some σ c ref r :
  find_room σ c = Some (ref, r) ↔ rooms σ !! c = Some ref ∧ heap σ !! ref = Some r.
Proof.
  unfold find_room. destruct (rooms σ !! c) as [ref'|]; simpl.
  - destruct (heap σ !! ref') as [r'|] eqn:Hr; simpl.
    + split; [by intros [= <- <-] | intros [[= <-] Hr']; congruence].
    + split; [done | intros [[= <-] Hr']; congruence].
  - split; [done | by intros [? _]].
Qed.

Lemma find_room_None σ c : rooms σ !! c = None → find_room σ c = None.
Proof. unfold find_room. by intros ->. Qed.

Lemma inv_sessions rms hp ss ss' : inv (State rms hp ss) → inv (State rms hp ss').
Proof. done. Qed.

Lemma registry_ok_update σ ref r r' ss :
  registry_ok σ → heap σ !! ref = Some r →
  code r' = code r → (room_ok r → room_ok r') →
  registry_ok (State (rooms σ) (<[ref := r']> (heap σ)) ss).
Proof.
  intros Hreg Hr Hcode Hok c ref2 Hc. simpl in *.
  destruct (Hreg c ref2 Hc) as (r2 & Hr2 & Hc2 & Hok2).
  destruct (decide (ref2 = ref)) as [->|Hne].
  - simplify_eq. exists r'. split; [|by auto with congruence].
    apply list_lookup_insert_eq. by eapply lookup_lt_Some.
  - exists r2. by rewrite list_lookup_insert_ne.
Qed.

Lemma registry_ok_remove σ ref r r' ss :
  registry_ok σ → heap σ !! ref = Some r → code r' = code r →
  registry_ok (State (delete (code r') (rooms σ)) (<[ref := r']> (heap σ)) ss).
Proof.
  intros Hreg Hr Hcode c ref2 Hc. simpl in *.
  apply lookup_delete_Some in Hc as [Hne Hc].
  destruct (Hreg c ref2 Hc) as (r2 & Hr2 & Hc2 & Hok2).
  destruct (decide (ref2 = ref)) as [->|Hne2]; [congruence|].
  exists r2. by rewrite list_lookup_insert_ne.
Qed.

Lemma registry_ok_alloc σ c r ss :
  registry_ok σ → code r = c → room_ok r →
  registry_ok (State (<[c := length (heap σ)]> (rooms σ)) (heap σ ++ [r]) ss).
Proof.
  intros Hreg Hcode Hok c2 ref2 Hc. simpl in *.
  apply lookup_insert_Some in Hc as [[<- <-]|[Hne Hc]].
  - exists r. by rewrite list_lookup_middle.
  - destruct (Hreg c2 ref2 Hc) as (r2 & Hr2 & Hc2 & Hok2).
    exists r2. by rewrite lookup_app_l by (by eapply lookup_lt_Some).
Qed.

Lemma join_wf r pid conn now :
  wf_room r →
  wf_room (set_players (JsMap.set pid (Player pid conn now) (players r)) r).
Proof.
  intros [Hnd Hid]. split; simpl; [by apply set_NoDup | by apply set_Forall].
Qed.

Lemma join_ok r pid conn now :
  room_ok r →
  room_ok (set_players (JsMap.set pid (Player pid conn now) (players r)) r).
Proof.
  intros [Hsz (h & p & Hh & Hget & Hp)]. split; simpl.
  - pose proof (set_size_le (players r) pid (Player pid conn now)). lia.
  - destruct (decide (pid = h)) as [->|Hne].
    + exists h, (Player h conn now). by rewrite get_set_eq.
    + exists h, p. by rewrite get_set_ne.
Qed.

Lemma leave_inv σ pid ref : inv σ → inv (leave σ pid ref).1.
Proof.
  intros [Hwf Hreg]. unfold leave.
  destruct (heap σ !! ref) as [r|] eqn:Hr; [|done].
  assert (wf_room r) as Hwfr by (by eapply Forall_lookup_1).
  case_bool_decide as Hsz; simpl; (split; simpl;
    [apply Forall_insert; [done | by apply leave_room_wf]|]).
  - eapply registry_ok_remove; [done..|apply leave_room_code].
  - eapply registry_ok_update; [done..|apply leave_room_code|].
    intros Hok. apply leave_room_ok; [done..|].
    intros Hnil. apply Hsz. unfold JsMap.size. by rewrite Hnil.
Qed.

Lemma inv_step σ ev σ' out : inv σ → step σ ev = Some (σ', out) → inv σ'.
Proof.
  intros Hinv Hstep. pose proof Hinv as [Hwf Hreg].
  destruct ev as [now|conn data now draws|conn]; simpl in Hstep.
  - by simplify_eq.
  - destruct (sessions σ !! conn) as [s|]; simpl in Hstep; [|done].
    destruct (ws_open s); [|done].
    destruct data as [|c| |pid mp rs|pid|].
    + unfold handle_createRoom in Hstep.
      destruct (generateRoomCode _ _) as [[c rest]|]; simplify_eq/=.
      split; simpl.
      * apply Forall_app. split; [done|]. apply Forall_singleton.
        split; simpl; [apply NoDup_singleton | by apply Forall_singleton].
      * apply registry_ok_alloc; [done..|]. split; simpl; [lia|].
        exists (playerId s), (Player (playerId s) conn now).
        by rewrite decide_True.
    + unfold handle_joinRoom in Hstep.
      destruct (find_room σ c) as [[ref r]|] eqn:Hf; [|by simplify_eq].
      apply find_room_Some in Hf as [Hc Hr].
      destruct (gameStarted r); [by simplify_eq|].
      case_bool_decide; simplify_eq; [done|].
      split; simpl.
      * apply Forall_insert; [done|]. apply join_wf. by eapply Forall_lookup_1.
      * eapply registry_ok_update; [done..|apply join_ok].
    + unfold handle_leaveRoom in Hstep.
      destruct (currentRoom s) as [ref|]; [|by simplify_eq].
      pose proof (leave_inv σ (playerId s) ref Hinv) as Hl.
      destruct (leave σ (playerId s) ref) as [σ1 out1]. simplify_eq.
      by destruct σ1.
    + unfold handle_updateSettings in Hstep.
      destruct (currentRoom s) as [ref|]; [|by simplify_eq].
      destruct (heap σ !! ref) as [r|] eqn:Hr; [|by simplify_eq].
      case_bool_decide; simplify_eq; [|done].
      split; simpl.
      * apply Forall_insert; [done|].
        assert (wf_room r) as Hwfr by (by eapply Forall_lookup_1). exact Hwfr.
      * by eapply registry_ok_update.
    + unfold handle_startGame in Hstep.
      destruct (currentRoom s) as [ref|]; [|by simplify_eq].
      destruct (heap σ !! ref) as [r|] eqn:Hr; [|by simplify_eq].
      destruct (_ && _); [|by simplify_eq].
      destruct (assignRoles _ _ _) as [[a rest]|]; simplify_eq/=.
      split; simpl.
      * apply Forall_insert; [done|].
        assert (wf_room r) as Hwfr by (by eapply Forall_lookup_1). exact Hwfr.
      * by eapply registry_ok_update.
    + by simplify_eq.
  - destruct (sessions σ !! conn) as [s|]; simpl in Hstep; [|done].
    destruct (ws_open s); [|done]. injection Hstep as Hstep.
    unfold handle_close in Hstep.
    destruct (currentRoom s) as [ref|]; [|simplify_eq; by destruct σ].
    pose proof (leave_inv (with_sessions (set_closed conn) σ) (playerId s) ref) as Hl.
    rewrite Hstep in Hl. apply Hl. by destruct σ.
Qed.

Lemma inv_init : inv init.
Proof. split; [constructor|]. intros c ref Hc. simpl in Hc. by rewrite lookup_empty in Hc. Qed.

Lemma reachable_inv σ : reachable σ → inv σ.
Proof. induction 1; [apply inv_init | by eapply inv_step]. Qed.

(** Every room object of a reachable state is keyed by the ids of its
    players, without repetition. *)
Lemma reachable_room_wf σ ref r : reachable σ → heap σ !! ref = Some r → wf_room r.
Proof.
  intros [Hwf _]%reachable_inv Hr. by eapply Forall_lookup_1.
Qed.

Lemma run_reachable σ evs σ' out :
  reachable σ → run σ evs = Some (σ', out) → reachable σ'.
Proof.
  revert σ out. induction evs as [|ev evs IH]; simpl; intros σ out Hr Hrun.
  - by simplify_eq.
  - destruct (step σ ev) as [[σ1 out1]|] eqn:Hs; simpl in Hrun; [|done].
    destruct (run σ1 evs) as [[σ2 out2]|] eqn:Hr2; simplify_eq/=.
    eapply IH; [|done]. by eapply reachable_step.
Qed.
End invariant.

(** ** Departures: [leaveRoom] and [close] *)

Section departures.
Implicit Types (σ : state) (r : room) (s : session).

Lemma leave_sessions σ pid ref : sessions (leave σ pid ref).1 = sessions σ.
Proof.
  unfold leave. destruct (heap σ !! ref); [|done]. by case_bool_decide.
Qed.

Lemma leave_spec σ pid ref r :
  heap σ !! ref = Some r →
  heap (leave σ pid ref).1 = <[ref := leave_room pid r]> (heap σ)
  ∧ rooms (leave σ pid ref).1 =
      (if bool_decide (JsMap.size (players (leave_room pid r)) = 0%nat)
       then delete (code r) (rooms σ) else rooms σ)
  ∧ (leave σ pid ref).2 =
      (if bool_decide (JsMap.size (players (leave_room pid r)) = 0%nat)
       then [] else broadcastGameState (sessions σ) (leave_room pid r)).
Proof.
  intros Hr. unfold leave. rewrite Hr.
  case_bool_decide; simpl; by rewrite ?leave_room_code.
Qed.

(** Both departures run [leave] for the connection's own [playerId] on
    its [currentRoom]. *)
Lemma departure_step σ conn ev s ref σ' out :
  is_leave conn ev → sessions σ !! conn = Some s → currentRoom s = Some ref →
  step σ ev = Some (σ', out) →
  ∃ ss0, heap σ' = heap (leave (State (rooms σ) (heap σ) ss0) (playerId s) ref).1
       ∧ rooms σ' = rooms (leave (State (rooms σ) (heap σ) ss0) (playerId s) ref).1.
Proof.
  intros [(now & draws & ->)| ->] Hs Hcr; simpl; rewrite Hs; simpl;
    (destruct (ws_open s); [|done]); intros [= Hstep].
  - unfold handle_leaveRoom in Hstep. rewrite Hcr in Hstep.
    exists (sessions σ). destruct σ as [rms hp ss]. simpl in *.
    destruct (leave _ _ _) as [σ1 out1]. by simplify_eq.
  - unfold handle_close in Hstep. rewrite Hcr in Hstep.
    exists (set_closed conn (sessions σ)). unfold with_sessions in Hstep.
    by rewrite Hstep.
Qed.

Lemma departure_room σ conn ev s ref r σ' out :
  is_leave conn ev → sessions σ !! conn = Some s → currentRoom s = Some ref →
  heap σ !! ref = Some r →
  step σ ev = Some (σ', out) →
  heap σ' = <[ref := leave_room (playerId s) r]> (heap σ)
  ∧ rooms σ' =
      (if bool_decide (JsMap.size (players (leave_room (playerId s) r)) = 0%nat)
       then delete (code r) (rooms σ) else rooms σ).
Proof.
  intros Hev Hs Hcr Hr Hstep.
  destruct (departure_step _ _ _ _ _ _ _ Hev Hs Hcr Hstep) as (ss0 & -> & ->).
  by destruct (leave_spec (State (rooms σ) (heap σ) ss0) (playerId s) ref r Hr)
    as (-> & -> & _).
Qed.
End departures.

(** C3: in every reachable state each registered room is stored under its
    own code, has at least one member, and its host is the id of one of its
    members; a [leaveRoom] or [close] that removes the last member of a room
    unregisters the room in the same step. *)
Theorem registered_rooms_have_members_and_host σ :
  reachable σ →
  (∀ c ref, rooms σ !! c = Some ref →
     ∃ r, heap σ !! ref = Some r ∧ code r = c
          ∧ (0 < JsMap.size (players r))%nat
          ∧ ∃ h p, host r = Some h ∧ JsMap.get h (players r) = Some p ∧ id p = h)
  ∧ (∀ conn ev s ref r σ' out,
       is_leave conn ev → sessions σ !! conn = Some s →
       currentRoom s = Some ref → heap σ !! ref = Some r →
       step σ ev = Some (σ', out) →
       ∃ r', heap σ' !! ref = Some r'
             ∧ players r' = JsMap.delete (playerId s) (players r)
             ∧ (JsMap.size (players r') = 0%nat →
                rooms σ' !! code r = None ∧ ∀ c, rooms σ' !! c ≠ Some ref)).
Proof.
  intros Hreach. pose proof (reachable_inv σ Hreach) as [Hwf Hreg]. split.
  - intros c ref Hc. destruct (Hreg c ref Hc) as (r & Hr & Hcode & Hsz & Hhost).
    by exists r.
  - intros conn ev s ref r σ' out Hev Hs Hcr Hr Hstep.
    destruct (departure_room _ _ _ _ _ _ _ _ Hev Hs Hcr Hr Hstep) as [Hheap Hrooms].
    exists (leave_room (playerId s) r). split; [|split].
    + rewrite Hheap. apply list_lookup_insert_eq. by eapply lookup_lt_Some.
    + apply leave_room_players.
    + intros Hsz. rewrite Hrooms, bool_decide_eq_true_2 by done.
      split; [apply lookup_delete_eq|].
      intros c Hc. apply lookup_delete_Some in Hc as [Hne Hc].
      destruct (Hreg c ref Hc) as (r2 & Hr2 & Hc2 & _). congruence.
Qed.

(** C4: after a [leaveRoom] or a [close] of the connection whose player was
    the host, if members remain then the new host is the id of a remaining
    member whose [joinTime] is at most that of every remaining member. *)
Theorem host_succession_oldest σ conn ev s ref r σ' out :
  is_leave conn ev → sessions σ !! conn = Some s →
  currentRoom s = Some ref → heap σ !! ref = Some r →
  host r = Some (playerId s) →
  step σ ev = Some (σ', out) →
  ∃ r', heap σ' !! ref = Some r'
        ∧ players r' = JsMap.delete (playerId s) (players r)
        ∧ ((0 < JsMap.size (players r'))%nat →
           ∃ p, p ∈ JsMap.values (players r')
                ∧ host r' = Some (id p)
                ∧ (wf_room r → JsMap.get (id p) (players r') = Some p)
                ∧ ∀ q, q ∈ JsMap.values (players r') → joinTime p ≤ joinTime q).
Proof.
  intros Hev Hs Hcr Hr Hhost Hstep.
  destruct (departure_room _ _ _ _ _ _ _ _ Hev Hs Hcr Hr Hstep) as [Hheap _].
  exists (leave_room (playerId s) r). split; [|split].
  - rewrite Hheap. apply list_lookup_insert_eq. by eapply lookup_lt_Some.
  - apply leave_room_players.
  - intros Hsz.
    destruct (leave_room_host_succession (playerId s) r Hhost) as (p & Hin & Hh & Hmin).
    { intros Hnil. rewrite Hnil in Hsz. simpl in Hsz. lia. }
    exists p. repeat split; [done..| |done].
    intros Hwf. by apply wf_room_value_get; [apply leave_room_wf|].
Qed.

(** ** What the other connections cannot touch *)

Section sessions_of_others.
Implicit Types (σ : state) (ss : list session).

Lemma set_currentRoom_other conn conn' cr ss :
  conn ≠ conn' → set_currentRoom conn' cr ss !! conn = ss !! conn.
Proof.
  intros Hne. unfold set_currentRoom. destruct (ss !! conn'); [|done].
  by apply list_lookup_insert_ne.
Qed.

Lemma set_closed_other conn conn' ss :
  conn ≠ conn' → set_closed conn' ss !! conn = ss !! conn.
Proof.
  intros Hne. unfold set_closed. destruct (ss !! conn'); [|done].
  by apply list_lookup_insert_ne.
Qed.

(** An event of another connection leaves this connection's closure as
    it is. *)
Lemma step_other_session σ ev σ' out conn s :
  step σ ev = Some (σ', out) → event_conn ev ≠ Some conn →
  sessions σ !! conn = Some s → sessions σ' !! conn = Some s.
Proof.
  intros Hstep Hev Hs.
  destruct ev as [now|conn' data now draws|conn']; simpl in Hstep, Hev.
  - simplify_eq. simpl. by rewrite lookup_app_l by (by eapply lookup_lt_Some).
  - assert (conn ≠ conn') as Hne by congruence.
    destruct (sessions σ !! conn') as [s'|]; simpl in Hstep; [|done].
    destruct (ws_open s'); [|done].
    destruct data as [|c| |pid mp rs|pid|].
    + unfold handle_createRoom in Hstep.
      destruct (generateRoomCode _ _) as [[c rest]|]; simpl in Hstep; simplify_eq.
      simpl. by rewrite set_currentRoom_other.
    + unfold handle_joinRoom in Hstep.
      destruct (find_room σ c) as [[ref r]|]; [|by simplify_eq].
      destruct (gameStarted r); [by simplify_eq|].
      case_bool_decide; simplify_eq; [done|].
      simpl. by rewrite set_currentRoom_other.
    + unfold handle_leaveRoom in Hstep.
      destruct (currentRoom s') as [ref|]; [|by simplify_eq].
      pose proof (leave_sessions σ (playerId s') ref) as Hss.
      destruct (leave σ (playerId s') ref) as [σ1 out1]. simplify_eq/=.
      by rewrite set_currentRoom_other, Hss.
    + unfold handle_updateSettings in Hstep.
      destruct (currentRoom s') as [ref|]; [|by simplify_eq].
      destruct (heap σ !! ref) as [r|]; [|by simplify_eq].
      by case_bool_decide; simplify_eq.
    + unfold handle_startGame in Hstep.
      destruct (currentRoom s') as [ref|]; [|by simplify_eq].
      destruct (heap σ !! ref) as [r|]; [|by simplify_eq].
      destruct (_ && _); [|by simplify_eq].
      by destruct (assignRoles _ _ _) as [[a rest]|]; simpl in Hstep; simplify_eq.
    + by simplify_eq.
  - assert (conn ≠ conn') as Hne by congruence.
    destruct (sessions σ !! conn') as [s'|]; simpl in Hstep; [|done].
    destruct (ws_open s'); [|done]. injection Hstep as Hstep.
    unfold handle_close in Hstep.
    destruct (currentRoom s') as [ref|].
    + pose proof (leave_sessions (with_sessions (set_closed conn') σ) (playerId s') ref) as Hss.
      rewrite Hstep in Hss. simpl in Hss. by rewrite Hss, set_closed_other.
    + simplify_eq. simpl. by rewrite set_closed_other.
Qed.

Lemma run_other_session σ evs : ∀ σ' out conn s,
  run σ evs = Some (σ', out) →
  Forall (λ ev, event_conn ev ≠ Some conn) evs →
  sessions σ !! conn = Some s → sessions σ' !! conn = Some s.
Proof.
  revert σ. induction evs as [|ev evs IH]; simpl; intros σ σ' out conn s Hrun Hevs Hs.
  - by simplify_eq.
  - apply Forall_cons in Hevs as [Hev Hevs].
    destruct (step σ ev) as [[σ1 out1]|] eqn:Hstep; simpl in Hrun; [|done].
    destruct (run σ1 evs) as [[σ2 out2]|] eqn:Hr2; simplify_eq/=.
    eapply IH; [done..|]. by eapply step_other_session.
Qed.

(** After its [leaveRoom] a connection is detached and still open. *)
Lemma leaveRoom_detaches σ conn now draws σ1 out1 :
  step σ (Message conn leaveRoomMsg now draws) = Some (σ1, out1) →
  ∃ pid, sessions σ1 !! conn = Some (Session pid None true).
Proof.
  simpl. destruct (sessions σ !! conn) as [s|] eqn:Hs; simpl; [|done].
  destruct (ws_open s) eqn:Hopen; [|done]. intros [= Hl].
  exists (playerId s). unfold handle_leaveRoom in Hl.
  destruct (currentRoom s) as [ref|] eqn:Hcr.
  - pose proof (leave_sessions σ (playerId s) ref) as Hss.
    destruct (leave σ (playerId s) ref) as [σ' out']. simplify_eq/=.
    unfold set_currentRoom. rewrite Hss, Hs, Hopen.
    apply list_lookup_insert_eq. by eapply lookup_lt_Some.
  - simplify_eq. rewrite Hs. destruct s. simpl in *. by subst.
Qed.
End sessions_of_others.

(** C9: after a completed [leaveRoom] of a connection, and whatever the
    other connections do in between, the [close] of the same connection
    sends nothing and leaves the registry and every room object as they
    are: no member is removed, no count changes, no host is replaced. *)
Theorem leave_then_close_idempotent σ conn now draws σ1 out1 evs σ2 out2 :
  step σ (Message conn leaveRoomMsg now draws) = Some (σ1, out1) →
  Forall (λ ev, event_conn ev ≠ Some conn) evs →
  run σ1 evs = Some (σ2, out2) →
  ∃ σ3, step σ2 (Close conn) = Some (σ3, [])
        ∧ rooms σ3 = rooms σ2 ∧ heap σ3 = heap σ2
        ∧ sessions σ3 = set_closed conn (sessions σ2).
Proof.
  intros Hleave Hevs Hrun.
  destruct (leaveRoom_detaches _ _ _ _ _ _ Hleave) as [pid Hs1].
  pose proof (run_other_session _ _ _ _ _ _ Hrun Hevs Hs1) as Hs2.
  simpl. rewrite Hs2. simpl. unfold handle_close. simpl. by eexists.
Qed.

(** ** Role assignment *)

Section assignment.
Implicit Types (ps allRoles labels : list string) (rs : list role).

Lemma random_below_range d n : 0 < n → 0 ≤ random_below d n < n.
Proof.
  intros Hn. unfold random_below.
  assert (0 < two53) as H53 by done.
  pose proof (Z.mod_pos_bound d two53 H53) as [Hlo Hhi]. split.
  - apply Z.div_pos; [|done]. by apply Z.mul_nonneg_nonneg; lia.
  - apply Z.div_lt_upper_bound; [done|]. by apply Z.mul_lt_mono_pos_r.
Qed.

Lemma random_below_0 d : random_below d 0 = 0.
Proof. unfold random_below. by rewrite Z.mul_0_r. Qed.

Lemma randomIndex_lt d allRoles :
  allRoles ≠ [] →
  (Z.to_nat (random_below d (Z.of_nat (length allRoles))) < length allRoles)%nat.
Proof.
  intros Hne.
  assert (0 < Z.of_nat (length allRoles)) as Hpos by (destruct allRoles; simpl; [done | lia]).
  pose proof (random_below_range d _ Hpos). lia.
Qed.

Lemma expand_roles_cons r rs :
  expand_roles (r :: rs) = replicate (count r) (name r) ++ expand_roles rs.
Proof. done. Qed.

Lemma expand_roles_length rs : length (expand_roles rs) = total_count rs.
Proof.
  unfold total_count. induction rs as [|r rs IH]; [done|].
  rewrite expand_roles_cons, length_app, length_replicate, IH. done.
Qed.

Lemma occurrences_app nm l1 l2 :
  occurrences nm (l1 ++ l2) = (occurrences nm l1 + occurrences nm l2)%nat.
Proof. unfold occurrences. by rewrite filter_app, length_app. Qed.

Lemma occurrences_replicate nm n x :
  occurrences nm (replicate n x) = if decide (x = nm) then n else 0%nat.
Proof.
  unfold occurrences. destruct (decide (x = nm)) as [Heq|Hne].
  - induction n as [|n IH]; simpl; [done|].
    rewrite filter_cons_True by done. simpl. by rewrite IH.
  - induction n as [|n IH]; simpl; [done|].
    by rewrite filter_cons_False by done.
Qed.

Lemma occurrences_expand nm rs : occurrences nm (expand_roles rs) = configured nm rs.
Proof.
  unfold configured. induction rs as [|r rs IH]; [done|].
  rewrite expand_roles_cons, occurrences_app, occurrences_replicate, IH, filter_cons.
  by case_decide.
Qed.

Lemma occurrences_perm nm l1 l2 : l1 ≡ₚ l2 → occurrences nm l1 = occurrences nm l2.
Proof. unfold occurrences. by intros ->. Qed.

(** The loop, from any point: the players still to serve get, in order,
    labels taken out of [allRoles] one after the other, and [undefined]
    once it is empty. *)
Lemma assign_loop_spec ps : ∀ allRoles (acc : JsMap.t (option string)) draws,
  NoDup ps → (∀ p, p ∈ ps → p ∉ JsMap.keys acc) →
  (length ps ≤ length draws)%nat →
  ∃ labels leftover,
    assign_loop ps allRoles acc draws =
      Some (acc ++ zip ps ((Some <$> labels)
                           ++ replicate (length ps - length allRoles) None),
            drop (length ps) draws)
    ∧ labels ++ leftover ≡ₚ allRoles
    ∧ length labels = (length ps `min` length allRoles)%nat.
Proof.
  induction ps as [|p ps IH]; intros allRoles acc draws Hnd Hfresh Hlen.
  - exists [], allRoles. simpl. by rewrite app_nil_r.
  - destruct draws as [|d draws]; [simpl in Hlen; lia|].
    apply NoDup_cons in Hnd as [Hp Hnd]. cbn [assign_loop].
    rewrite set_fresh by (apply Hfresh; left).
    set (i := Z.to_nat (random_below d (Z.of_nat (length allRoles)))).
    destruct (IH (delete i allRoles) (acc ++ [(p, allRoles !! i)]) draws)
      as (labels & leftover & Heq & Hperm & Hll); [done| |simpl in Hlen; lia|].
    { intros q Hq. unfold JsMap.keys. rewrite fmap_app, not_elem_of_app. split.
      - apply Hfresh. by right.
      - simpl. rewrite list_elem_of_singleton. intros ->. done. }
    destruct (decide (allRoles = [])) as [->|Hne].
    + exists [], []. simpl in Hll.
      assert (labels = []) as -> by (apply length_zero_iff_nil; lia).
      rewrite Heq. simpl. rewrite <-app_assoc, Nat.sub_0_r. simpl.
      split; [|done]. by destruct i.
    + pose proof (randomIndex_lt d allRoles Hne) as Hi. fold i in Hi.
      destruct (lookup_lt_is_Some_2 allRoles i Hi) as [x Hx].
      exists (x :: labels), leftover.
      rewrite length_delete in Heq, Hll by done. split; [|split].
      * rewrite Heq, Hx, <-app_assoc, length_cons.
        replace (S (length ps) - length allRoles)%nat
          with (length ps - (length allRoles - 1))%nat by lia.
        done.
      * simpl. rewrite Hperm. symmetry. by apply delete_Permutation.
      * rewrite !length_cons. lia.
Qed.

Lemma assignRoles_spec ps rs draws :
  NoDup ps → (length ps ≤ length draws)%nat →
  ∃ labels leftover,
    assignRoles ps rs draws =
      Some (zip ps ((Some <$> labels)
                    ++ replicate (length ps - total_count rs) None),
            drop (length ps) draws)
    ∧ labels ++ leftover ≡ₚ expand_roles rs
    ∧ length labels = (length ps `min` total_count rs)%nat.
Proof.
  intros Hnd Hlen. unfold assignRoles.
  destruct (assign_loop_spec ps (expand_roles rs) [] draws)
    as (labels & leftover & Heq & Hperm & Hll); [done| |done|].
  { intros p _. apply not_elem_of_nil. }
  rewrite expand_roles_length in Heq, Hll. by exists labels, leftover.
Qed.

Lemma keys_zip ps (vs : list (option string)) :
  length ps = length vs → JsMap.keys (zip ps vs) = ps.
Proof. intros H. unfold JsMap.keys. apply fst_zip. lia. Qed.

Lemma values_zip ps (vs : list (option string)) :
  length ps = length vs → JsMap.values (zip ps vs) = vs.
Proof. intros H. unfold JsMap.values. apply snd_zip. lia. Qed.
End assignment.

(** C1: when the pool holds at least as many labels as there are players,
    the assignment of [startGame] returns a map whose keys are exactly the
    players, in order and once each; the roles handed out are taken without
    replacement from the flat list that repeats each name [count] times
    (together with the labels left over they are a permutation of it); and
    no name is handed out more often than its configured count. *)
Theorem assignRoles_sufficient ps rs draws :
  NoDup ps → (length ps ≤ total_count rs)%nat → (length ps ≤ length draws)%nat →
  ∃ a rest labels leftover,
    assignRoles ps rs draws = Some (a, rest)
    ∧ JsMap.keys a = ps
    ∧ JsMap.values a = Some <$> labels
    ∧ labels ++ leftover ≡ₚ expand_roles rs
    ∧ ∀ nm, (occurrences nm labels ≤ configured nm rs)%nat.
Proof.
  intros Hnd Htot Hlen.
  destruct (assignRoles_spec ps rs draws Hnd Hlen) as (labels & leftover & Heq & Hperm & Hll).
  replace (length ps - total_count rs)%nat with 0%nat in Heq by lia.
  simpl in Heq. rewrite app_nil_r in Heq.
  exists (zip ps (Some <$> labels)), (drop (length ps) draws), labels, leftover.
  split; [done|].
  assert (length ps = length (Some <$> labels)) as Hl by (rewrite length_fmap; lia).
  split; [by apply keys_zip|]. split; [by apply values_zip|]. split; [done|].
  intros nm. rewrite <-occurrences_expand, <-(occurrences_perm nm _ _ Hperm).
  rewrite occurrences_app. lia.
Qed.

(** C2, as the code has it: when the pool holds fewer labels than there are
    players, the assignment still returns a map over all the players: the
    first [total_count rs] of them share out the whole pool and every later
    player is mapped to [undefined]. *)
Theorem assignRoles_insufficient ps rs draws :
  NoDup ps → (total_count rs < length ps)%nat → (length ps ≤ length draws)%nat →
  ∃ a rest labels,
    assignRoles ps rs draws = Some (a, rest)
    ∧ JsMap.keys a = ps
    ∧ JsMap.values a =
        (Some <$> labels) ++ replicate (length ps - total_count rs) None
    ∧ labels ≡ₚ expand_roles rs.
Proof.
  intros Hnd Htot Hlen.
  destruct (assignRoles_spec ps rs draws Hnd Hlen) as (labels & leftover & Heq & Hperm & Hll).
  assert (leftover = []) as ->.
  { apply length_zero_iff_nil. apply Permutation_length in Hperm.
    rewrite length_app, expand_roles_length in Hperm. lia. }
  rewrite app_nil_r in Hperm.
  eexists _, _, labels. split; [done|].
  assert (length ps = length ((Some <$> labels)
            ++ replicate (length ps - total_count rs) (@None string))) as Hl.
  { rewrite length_app, length_fmap, length_replicate. lia. }
  split; [by apply keys_zip|]. split; [by apply values_zip | done].
Qed.

(** ** Room codes *)

Section room_codes.
Implicit Types (rms : gmap string nat) (σ : state).

Lemma code_of_draw_range d : ∃ n, 1000 ≤ n ≤ 9999 ∧ code_of_draw d = pretty n.
Proof.
  exists (1000 + random_below d 9000). split; [|done].
  pose proof (random_below_range d 9000). lia.
Qed.



Lemma generateRoomCode_Some rms draws c rest :
  generateRoomCode rms draws = Some (c, rest) →
  rms !! c = None ∧ ∃ d, d ∈ draws ∧ c = code_of_draw d.
Proof.
  induction draws as [|d draws IH]; simpl; [done|].
  case_decide as Hc.
  - intros H. destruct (IH H) as (Hnone & d' & Hin & ->).
    split; [done|]. exists d'. split; [by right | done].
  - intros [= <- <-]. split; [by apply eq_None_not_Some|].
    exists d. split; [left | done].
Qed.








End room_codes.



(** C10: [createRoom] builds a room with [maxPlayers = 5], the pool
    [당첨 x 3, 꽝 x 2], [gameStarted = false], no host and no player; the
    [createRoom] case then registers it under its code with the creator as
    host and only member, joined at the current time. *)
Theorem createRoom_defaults σ conn s now draws σ' out :
  sessions σ !! conn = Some s →
  step σ (Message conn createRoomMsg now draws) = Some (σ', out) →
  ∃ c, createRoom c = Room c None 5 [Role "당첨" 3; Role "꽝" 2] [] false
       ∧ rooms σ !! c = None
       ∧ rooms σ' !! c = Some (length (heap σ))
       ∧ heap σ' !! length (heap σ) =
           Some (Room c (Some (playerId s)) 5 [Role "당첨" 3; Role "꽝" 2]
                   [(playerId s, Player (playerId s) conn now)] false)
       ∧ sessions σ' !! conn = Some (Session (playerId s) (Some (length (heap σ))) true).
Proof.
  intros Hs. simpl. rewrite Hs. simpl. destruct (ws_open s) eqn:Ho; [|done].
  unfold handle_createRoom.
  destruct (generateRoomCode _ _) as [[c rest]|] eqn:Hg; simpl; [|done].
  intros [= <- <-]. exists c. simpl.
  apply generateRoomCode_Some in Hg as [Hnone _].
  split; [done|]. split; [done|]. split; [apply lookup_insert_eq|].
  split; [apply list_lookup_middle; done|].
  unfold set_currentRoom. rewrite Hs, <-Ho.
  apply list_lookup_insert_eq. by eapply lookup_lt_Some.
Qed.

(** C5: a [joinRoom] request is answered, in this order: with the
    room-not-found error when the code is not registered; with the
    game-already-started error when the room has started; with the
    room-full error when [players.size >= maxPlayers]; in these three cases
    the state is unchanged and the error reply to the requester is all that
    is sent.  Otherwise the player is set in the room's map with the current
    time as [joinTime], the connection is attached, and the reply is
    followed by a broadcast. *)
Theorem joinRoom_cases σ conn s roomCode now draws :
  sessions σ !! conn = Some s → ws_open s = true →
  (rooms σ !! roomCode = None →
     step σ (Message conn (joinRoomMsg roomCode) now draws)
     = Some (σ, [(conn, error err_not_found)]))
  ∧ (∀ ref r, rooms σ !! roomCode = Some ref → heap σ !! ref = Some r →
       (gameStarted r = true →
          step σ (Message conn (joinRoomMsg roomCode) now draws)
          = Some (σ, [(conn, error err_started)]))
       ∧ (gameStarted r = false →
          maxPlayers r ≤ Z.of_nat (JsMap.size (players r)) →
          step σ (Message conn (joinRoomMsg roomCode) now draws)
          = Some (σ, [(conn, error err_full)]))
       ∧ (gameStarted r = false →
          Z.of_nat (JsMap.size (players r)) < maxPlayers r →
          ∃ r', r' = set_players
                       (JsMap.set (playerId s) (Player (playerId s) conn now)
                                  (players r)) r
                ∧ JsMap.get (playerId s) (players r')
                  = Some (Player (playerId s) conn now)
                ∧ step σ (Message conn (joinRoomMsg roomCode) now draws)
                  = Some (State (rooms σ) (<[ref := r']> (heap σ))
                                (set_currentRoom conn (Some ref) (sessions σ)),
                          (conn, roomJoined roomCode (playerId s)
                                   (is_host r' (playerId s)))
                            :: broadcastGameState (sessions σ) r'))).
Proof.
  intros Hs Ho. simpl. rewrite Hs. simpl. rewrite Ho.
  unfold handle_joinRoom. split.
  - intros Hnone. by rewrite find_room_None.
  - intros ref r Hc Hr.
    assert (find_room σ roomCode = Some (ref, r)) as -> by (by apply find_room_Some).
    split; [|split].
    + by intros ->.
    + intros -> Hfull. by rewrite bool_decide_eq_true_2.
    + intros -> Hroom. rewrite bool_decide_eq_false_2 by lia.
      eexists. split; [done|]. split; [|done]. simpl. apply get_set_eq.
Qed.

(** C7, as the code has it: [updateSettings] takes effect whenever the
    connection is attached and the [playerId] of the message is the room's
    host, whether or not the game has started: [maxPlayers] and [roles] are
    replaced by the values of the message, nothing else of the room changes,
    and the new state is broadcast.  With another [playerId] it does
    nothing. *)
Theorem updateSettings_effect σ conn s ref r pid mp rs now draws :
  sessions σ !! conn = Some s → ws_open s = true →
  currentRoom s = Some ref → heap σ !! ref = Some r →
  (host r = Some pid →
     ∃ r', step σ (Message conn (updateSettingsMsg pid mp rs) now draws)
           = Some (State (rooms σ) (<[ref := r']> (heap σ)) (sessions σ),
                   broadcastGameState (sessions σ) r')
           ∧ maxPlayers r' = mp ∧ roles r' = rs
           ∧ gameStarted r' = gameStarted r ∧ host r' = host r
           ∧ players r' = players r ∧ code r' = code r)
  ∧ (host r ≠ Some pid →
     step σ (Message conn (updateSettingsMsg pid mp rs) now draws) = Some (σ, [])).
Proof.
  intros Hs Ho Hcr Hr. simpl. rewrite Hs. simpl. rewrite Ho.
  unfold handle_updateSettings. rewrite Hcr, Hr. split.
  - intros Hh. rewrite bool_decide_eq_true_2 by done.
    by exists (set_settings mp rs r).
  - intros Hh. by rewrite bool_decide_eq_false_2.
Qed.

(** ** [startGame] *)

Section start_game.
Implicit Types (σ : state) (r : room) (ss : list session).

Lemma results_of_app out1 out2 :
  results_of (out1 ++ out2) = results_of out1 ++ results_of out2.
Proof. apply omap_app. Qed.

Lemma results_of_broadcast ss r : results_of (broadcastGameState ss r) = [].
Proof.
  unfold broadcastGameState, results_of.
  induction (JsMap.values (players r)) as [|p l IH]; simpl; [done|].
  by destruct (readyState_open ss (ws p)).
Qed.

Lemma results_of_sendResults ss r a :
  results_of (sendResults ss r a) = own_results ss r a.
Proof.
  unfold sendResults, results_of, own_results.
  induction (players r) as [|kv l IH]; simpl; [done|].
  destruct (readyState_open ss (ws kv.2)); simpl; [f_equal|]; exact IH.
Qed.


End start_game.


(** ** The scenarios are runs of the server *)

Lemma reachable_of_run evs σ : fst <$> run init evs = Some σ → reachable σ.
Proof.
  destruct (run init evs) as [[σ' out]|] eqn:Hrun; simpl; [|done].
  intros [= <-]. eapply run_reachable; [apply reachable_init | done].
Qed.

Lemma lobby_run : fst <$> run init lobby_trace = Some lobby.
Proof. vm_compute. reflexivity. Qed.

Lemma duo_run : fst <$> run init duo_trace = Some duo.
Proof. vm_compute. reflexivity. Qed.


Lemma started_run : fst <$> run init started_trace = Some started.
Proof. vm_compute. reflexivity. Qed.

Lemma NoDup_two (k1 k2 : string) : k1 ≠ k2 → NoDup [k1; k2].
Proof.
  intros Hne. apply NoDup_cons. split; [|apply NoDup_singleton].
  by rewrite list_elem_of_singleton.
Qed.


(** C1, on two players and the pool of one A and one B. *)
Lemma assignRoles_sufficient_witness :
  ∃ a rest labels leftover,
    assignRoles ["1"; "2"] [Role "A" 1; Role "B" 1] [0; 0] = Some (a, rest)
    ∧ JsMap.keys a = ["1"; "2"]
    ∧ JsMap.values a = Some <$> labels
    ∧ labels ++ leftover ≡ₚ expand_roles [Role "A" 1; Role "B" 1]
    ∧ ∀ nm, (occurrences nm labels ≤ configured nm [Role "A" 1; Role "B" 1])%nat.
Proof.
  apply (assignRoles_sufficient ["1"; "2"] [Role "A" 1; Role "B" 1] [0; 0]).
  - by apply NoDup_two.
  - vm_compute. lia.
  - simpl. lia.
Defined.

(** C2 fails on the code: with one label for two players nothing is
    rejected; the first player is given the label, the second [undefined].
    In the room [short_pool] the game starts all the same, the two results
    are sent and no error is. *)
Lemma insufficient_pool_assigns_anyway :
  (total_count [Role "A" 1] < length ["1"; "2"])%nat
  ∧ (∃ a rest,
       assignRoles ["1"; "2"] [Role "A" 1] [0; 0] = Some (a, rest)
       ∧ assigned a "1" = Some "A" ∧ assigned a "2" = None)
  ∧ ∃ σ' out r',
      fst <$> run init short_pool_trace = Some short_pool
      ∧ step short_pool (Message 0 (startGameMsg "1") 13 [0; 0]) = Some (σ', out)
      ∧ heap σ' !! 0%nat = Some r' ∧ gameStarted r' = true
      ∧ results_of out = [(0%nat, Some "A"); (1%nat, None)]
      ∧ Forall (λ wm, ∀ m, wm.2 ≠ error m) out.
Proof.
  split; [vm_compute; lia|]. split.
  - exists [("1", Some "A"); ("2", None)], []. by vm_compute.
  - eexists _, _, _. split; [vm_compute; reflexivity|].
    split; [vm_compute; reflexivity|].
    split; [reflexivity|]. split; [reflexivity|]. split; [reflexivity|].
    by repeat constructor.
Qed.

Lemma assignRoles_insufficient_witness :
  ∃ a rest labels,
    assignRoles ["1"; "2"] [Role "A" 1] [0; 0] = Some (a, rest)
    ∧ JsMap.keys a = ["1"; "2"]
    ∧ JsMap.values a =
        (Some <$> labels)
        ++ replicate (length ["1"; "2"] - total_count [Role "A" 1]) None
    ∧ labels ≡ₚ expand_roles [Role "A" 1].
Proof.
  apply (assignRoles_insufficient ["1"; "2"] [Role "A" 1] [0; 0]).
  - by apply NoDup_two.
  - vm_compute. lia.
  - simpl. lia.
Defined.

(** C3, on the lobby of three and on the last member of a room leaving. *)
Lemma registered_rooms_witness :
  reachable lobby
  ∧ (∃ r, heap lobby !! 0%nat = Some r ∧ code r = "1000"
          ∧ (0 < JsMap.size (players r))%nat
          ∧ ∃ h p, host r = Some h ∧ JsMap.get h (players r) = Some p ∧ id p = h)
  ∧ ∃ σ' out,
      step started (Close 0) = Some (σ', out)
      ∧ ∃ r', heap σ' !! 0%nat = Some r'
              ∧ players r' = JsMap.delete "1" [("1", Player "1" 0 10)]
              ∧ (JsMap.size (players r') = 0%nat →
                 rooms σ' !! "1000" = None ∧ ∀ c, rooms σ' !! c ≠ Some 0%nat).
Proof.
  split; [apply (reachable_of_run _ _ lobby_run)|]. split.
  - apply (proj1 (registered_rooms_have_members_and_host lobby
                    (reachable_of_run _ _ lobby_run)) "1000" 0%nat).
    vm_compute. reflexivity.
  - eexists _, _. split; [vm_compute; reflexivity|].
    eapply (proj2 (registered_rooms_have_members_and_host started
                     (reachable_of_run _ _ started_run))
              0%nat (Close 0) (Session "1" (Some 0%nat) true) 0%nat
              (Room "1000" (Some "1") 5 default_roles [("1", Player "1" 0 10)] true)).
    + by right.
    + reflexivity.
    + reflexivity.
    + reflexivity.
    + vm_compute. reflexivity.
Defined.

(** C4, on the host of the lobby disconnecting. *)
Lemma host_succession_witness :
  ∃ σ' out,
    step lobby (Close 0) = Some (σ', out)
    ∧ ∃ r', heap σ' !! 0%nat = Some r'
            ∧ players r' = JsMap.delete "1" (players lobby_room)
            ∧ ((0 < JsMap.size (players r'))%nat →
               ∃ p, p ∈ JsMap.values (players r')
                    ∧ host r' = Some (id p)
                    ∧ (wf_room lobby_room → JsMap.get (id p) (players r') = Some p)
                    ∧ ∀ q, q ∈ JsMap.values (players r') → joinTime p ≤ joinTime q).
Proof.
  eexists _, _. split; [vm_compute; reflexivity|].
  eapply (host_succession_oldest lobby 0%nat (Close 0)
            (Session "1" (Some 0%nat) true) 0%nat lobby_room).
  - by right.
  - reflexivity.
  - reflexivity.
  - reflexivity.
  - reflexivity.
  - vm_compute. reflexivity.
Defined.

(** C9, on the host of the lobby leaving, another member leaving after it,
    and the host's connection closing at last. *)
Lemma leave_then_close_witness :
  ∃ σ1 out1 σ2 out2,
    step lobby (Message 0 leaveRoomMsg 20 []) = Some (σ1, out1)
    ∧ run σ1 [Message 1 leaveRoomMsg 21 []] = Some (σ2, out2)
    ∧ ∃ σ3, step σ2 (Close 0) = Some (σ3, [])
            ∧ rooms σ3 = rooms σ2 ∧ heap σ3 = heap σ2
            ∧ sessions σ3 = set_closed 0 (sessions σ2).
Proof.
  eexists _, _, _, _. split; [vm_compute; reflexivity|].
  split; [vm_compute; reflexivity|].
  eapply (leave_then_close_idempotent lobby 0%nat 20 [] _ _
            [Message 1 leaveRoomMsg 21 []]).
  - vm_compute. reflexivity.
  - apply Forall_singleton. discriminate.
  - vm_compute. reflexivity.
Defined.

(** C5, on an unknown code, on a started room, on a full room, and on a
    join that goes through. *)
Lemma joinRoom_cases_witness :
  step lobby (Message 1 (joinRoomMsg "9999") 20 [])
  = Some (lobby, [(1%nat, error err_not_found)])
  ∧ step started (Message 0 (joinRoomMsg "1000") 20 [])
    = Some (started, [(0%nat, error err_started)])
  ∧ step duo (Message 1 (joinRoomMsg "1000") 20 [])
    = Some (duo, [(1%nat, error err_full)])
  ∧ ∃ r', r' = set_players
                 (JsMap.set "2" (Player "2" 1 20) (players lobby_room)) lobby_room
          ∧ JsMap.get "2" (players r') = Some (Player "2" 1 20)
          ∧ step lobby (Message 1 (joinRoomMsg "1000") 20 [])
            = Some (State (rooms lobby) (<[0%nat := r']> (heap lobby))
                          (set_currentRoom 1 (Some 0%nat) (sessions lobby)),
                    (1%nat, roomJoined "1000" "2" (is_host r' "2"))
                      :: broadcastGameState (sessions lobby) r').
Proof.
  split; [|split; [|split]].
  - apply (proj1 (joinRoom_cases lobby 1%nat (Session "2" (Some 0%nat) true)
                    "9999" 20 [] eq_refl eq_refl)).
    vm_compute. reflexivity.
  - apply (proj1 (proj2 (joinRoom_cases started 0%nat (Session "1" (Some 0%nat) true)
                           "1000" 20 [] eq_refl eq_refl)
                    0%nat
                    (Room "1000" (Some "1") 5 default_roles
                          [("1", Player "1" 0 10)] true)
                    ltac:(vm_compute; reflexivity) eq_refl)).
    reflexivity.
  - apply (proj1 (proj2 (proj2 (joinRoom_cases duo 1%nat (Session "2" (Some 0%nat) true)
                                  "1000" 20 [] eq_refl eq_refl)
                           0%nat duo_room ltac:(vm_compute; reflexivity) eq_refl))).
    + reflexivity.
    + vm_compute. discriminate.
  - apply (proj2 (proj2 (proj2 (joinRoom_cases lobby 1%nat (Session "2" (Some 0%nat) true)
                                  "1000" 20 [] eq_refl eq_refl)
                           0%nat lobby_room ltac:(vm_compute; reflexivity) eq_refl))).
    + reflexivity.
    + vm_compute. reflexivity.
Defined.



(** C7 fails on the code: in [started] the game is on, and the host's
    [updateSettings] still replaces [maxPlayers] and [roles]. *)
Lemma updateSettings_after_start_changes_settings :
  ∃ σ' out r r',
    fst <$> run init started_trace = Some started
    ∧ heap started !! 0%nat = Some r
    ∧ gameStarted r = true ∧ maxPlayers r = 5 ∧ roles r = default_roles
    ∧ step started (Message 0 (updateSettingsMsg "1" 9 [Role "X" 1]) 12 [])
      = Some (σ', out)
    ∧ heap σ' !! 0%nat = Some r'
    ∧ maxPlayers r' = 9 ∧ roles r' = [Role "X" 1].
Proof.
  eexists _, _, _, _. split; [apply started_run|].
  split; [reflexivity|]. split; [reflexivity|]. split; [reflexivity|].
  split; [reflexivity|]. split; [vm_compute; reflexivity|].
  split; [reflexivity|]. split; reflexivity.
Qed.

Lemma updateSettings_effect_witness :
  ∃ r r',
    heap started !! 0%nat = Some r
    ∧ step started (Message 0 (updateSettingsMsg "1" 9 [Role "X" 1]) 12 [])
      = Some (State (rooms started) (<[0%nat := r']> (heap started)) (sessions started),
              broadcastGameState (sessions started) r')
    ∧ maxPlayers r' = 9 ∧ roles r' = [Role "X" 1]
    ∧ gameStarted r' = gameStarted r ∧ host r' = host r
    ∧ players r' = players r ∧ code r' = code r.
Proof.
  eexists.
  destruct (proj1 (updateSettings_effect started 0%nat (Session "1" (Some 0%nat) true)
                     0%nat
                     (Room "1000" (Some "1") 5 default_roles
                           [("1", Player "1" 0 10)] true)
                     "1" 9 [Role "X" 1] 12 [] eq_refl eq_refl eq_refl eq_refl)
             eq_refl) as [r' Hr'].
  exists r'. split; [reflexivity | exact Hr'].
Defined.


(** C10, on the first room of a fresh server. *)
Lemma createRoom_defaults_witness :
  ∃ σ' out,
    step (State ∅ [] [Session "1" None true]) (Message 0 createRoomMsg 10 [0])
    = Some (σ', out)
    ∧ ∃ c, createRoom c = Room c None 5 [Role "당첨" 3; Role "꽝" 2] [] false
           ∧ rooms (State ∅ [] [Session "1" None true]) !! c = None
           ∧ rooms σ' !! c = Some 0%nat
           ∧ heap σ' !! 0%nat =
               Some (Room c (Some "1") 5 [Role "당첨" 3; Role "꽝" 2]
                       [("1", Player "1" 0 10)] false)
           ∧ sessions σ' !! 0%nat = Some (Session "1" (Some 0%nat) true).
Proof.
  eexists _, _. split; [vm_compute; reflexivity|].
  eapply (createRoom_defaults (State ∅ [] [Session "1" None true]) 0%nat
            (Session "1" None true) 10 [0]).
  - reflexivity.
  - vm_compute. reflexivity.
Defined.

(** * More of the server *)

(** ** [getIPAddresses] *)

Lemma foldl_push_if_external acc l :
  foldl push_if_external acc l
  = acc ++ (address <$> filter (λ a, family a = "IPv4" ∧ internal a = false) l).
Proof.
  revert acc. induction l as [|a l IH]; intros acc; simpl.
  - by rewrite app_nil_r.
  - rewrite IH. unfold push_if_external.
    destruct (decide (family a = "IPv4")) as [Hf|Hf];
      destruct (internal a) eqn:Hi; simpl.
    + rewrite bool_decide_eq_true_2 by done. simpl.
      by rewrite filter_cons_False by (rewrite Hi; intros [_ ?]; done).
    + rewrite bool_decide_eq_true_2 by done. simpl.
      rewrite filter_cons_True by (by rewrite Hi). simpl.
      by rewrite <-app_assoc.
    + rewrite bool_decide_eq_false_2 by done. simpl.
      by rewrite filter_cons_False by (by intros [? _]).
    + rewrite bool_decide_eq_false_2 by done. simpl.
      by rewrite filter_cons_False by (by intros [? _]).
Qed.

Lemma foldl_interfaces acc (ifs : list (string * list address_info)) :
  foldl (λ addresses iface, foldl push_if_external addresses iface.2) acc ifs
  = acc ++ (ifs ≫= λ iface,
              address <$> filter (λ a, family a = "IPv4" ∧ internal a = false) iface.2).
Proof.
  revert acc. induction ifs as [|i ifs IH]; intros acc; simpl.
  - by rewrite app_nil_r.
  - by rewrite IH, foldl_push_if_external, <-app_assoc.
Qed.

(** X1: [getIPAddresses] returns, in the order of the interfaces and of
    their records, the addresses of exactly the records whose family is
    ['IPv4'] and that are not internal; an internal (loopback) or IPv6
    address is never listed. *)
Theorem getIPAddresses_spec (ifs : list (string * list address_info)) :
  getIPAddresses ifs
  = (ifs ≫= λ iface,
       address <$> filter (λ a, family a = "IPv4" ∧ internal a = false) iface.2)
  ∧ ∀ x, x ∈ getIPAddresses ifs ↔
         ∃ nm infos a, (nm, infos) ∈ ifs ∧ a ∈ infos
                       ∧ family a = "IPv4" ∧ internal a = false ∧ address a = x.
Proof.
  assert (getIPAddresses ifs
          = (ifs ≫= λ iface,
               address <$> filter (λ a, family a = "IPv4" ∧ internal a = false) iface.2))
    as Heq by (unfold getIPAddresses; by rewrite foldl_interfaces).
  split; [done|]. intros x. rewrite Heq, list_elem_of_bind. split.
  - intros ([nm infos] & Hx & Hin). simpl in Hx.
    apply list_elem_of_fmap in Hx as (a & -> & Ha).
    apply list_elem_of_filter in Ha as [[Hf Hi] Ha].
    by exists nm, infos, a.
  - intros (nm & infos & a & Hin & Ha & Hf & Hi & <-).
    exists (nm, infos). split; [|done]. simpl.
    apply list_elem_of_fmap. exists a. split; [done|].
    by apply list_elem_of_filter.
Qed.

(** ** [broadcastGameState] *)

Section broadcast.
Implicit Types (ss : list session) (r : room).

Lemma broadcast_cons ss r p (l : list player) :
  omap (λ p : player,
          if readyState_open ss (ws p)
          then Some (ws p, gameState (code r) (maxPlayers r) (roles r)
                            (JsMap.size (players r)) (gameStarted r) (host r)
                            (is_host r (id p)))
          else None) (p :: l)
  = (if readyState_open ss (ws p)
     then [(ws p, gameState (code r) (maxPlayers r) (roles r)
                    (JsMap.size (players r)) (gameStarted r) (host r)
                    (is_host r (id p)))]
     else [])
    ++ omap (λ p : player,
          if readyState_open ss (ws p)
          then Some (ws p, gameState (code r) (maxPlayers r) (roles r)
                            (JsMap.size (players r)) (gameStarted r) (host r)
                            (is_host r (id p)))
          else None) l.
Proof. simpl. by destruct (readyState_open ss (ws p)). Qed.

Lemma broadcast_open ss r :
  Forall (λ wm, readyState_open ss wm.1 = true) (broadcastGameState ss r).
Proof.
  unfold broadcastGameState.
  induction (JsMap.values (players r)) as [|p l IH]; [constructor|].
  rewrite (broadcast_cons ss r). apply Forall_app. split; [|done].
  destruct (readyState_open ss (ws p)) eqn:Ho; by repeat constructor.
Qed.

Lemma sendResults_open ss r a :
  Forall (λ wm, readyState_open ss wm.1 = true) (sendResults ss r a).
Proof.
  unfold sendResults. induction (players r) as [|kv l IH]; simpl; [constructor|].
  destruct (readyState_open ss (ws kv.2)) eqn:Ho; [constructor|]; done.
Qed.
End broadcast.

(** X2: one broadcast reaches, in the order of the player map, each member
    whose socket is open, once, and no other socket; every copy carries the
    same room code, [maxPlayers], [roles], [gameStarted] and [hostId], and a
    [currentPlayers] that counts all the members, those with a closed socket
    included. *)
Theorem broadcast_recipients (ss : list session) (r : room) :
  (broadcastGameState ss r).*1
  = filter (λ w, readyState_open ss w = true) (ws <$> JsMap.values (players r))
  ∧ Forall (λ wm, ∃ isHost,
              wm.2 = gameState (code r) (maxPlayers r) (roles r)
                       (length (players r)) (gameStarted r) (host r) isHost)
           (broadcastGameState ss r).
Proof.
  unfold broadcastGameState.
  induction (JsMap.values (players r)) as [|p l [IH1 IH2]]; [by split|].
  rewrite (broadcast_cons ss r), fmap_app, fmap_cons.
  destruct (readyState_open ss (ws p)) eqn:Ho; simpl.
  - rewrite filter_cons_True by done. split; [by f_equal|].
    constructor; [by eexists | done].
  - rewrite filter_cons_False by (by rewrite Ho). done.
Qed.

Section broadcast_host.
Implicit Types (ss : list session) (r : room).

Lemma host_copies_app out1 out2 :
  host_copies (out1 ++ out2) = (host_copies out1 + host_copies out2)%nat.
Proof.
  unfold host_copies. rewrite <-length_app. f_equal.
  apply (filter_app (λ wm : nat * server_msg, told_host wm.2)).
Qed.

(** The copies of a broadcast that say [isHost: true], counted along the
    player map. *)
Lemma host_copies_along ss r h (l : JsMap.t player) :
  host r = Some h → NoDup (JsMap.keys l) → Forall (λ kv, id kv.2 = kv.1) l →
  host_copies
    (omap (λ p : player,
             if readyState_open ss (ws p)
             then Some (ws p, gameState (code r) (maxPlayers r) (roles r)
                               (JsMap.size (players r)) (gameStarted r) (host r)
                               (is_host r (id p)))
             else None) (JsMap.values l))
  = match JsMap.get h l with
    | Some p => if readyState_open ss (ws p) then 1%nat else 0%nat
    | None => 0%nat
    end.
Proof.
  intros Hh. unfold JsMap.keys, JsMap.values.
  induction l as [|[k p] l IH]; intros Hnd Hid; [done|].
  apply NoDup_cons in Hnd as [Hk Hnd]. apply Forall_cons in Hid as [Hp Hid].
  simpl in Hp. rewrite fmap_cons. cbn [snd].
  rewrite (broadcast_cons ss r), host_copies_app, (IH Hnd Hid).
  cbn [JsMap.get]. destruct (decide (h = k)) as [->|Hne].
  - assert (JsMap.get k l = None) as -> by (by apply get_None_keys).
    unfold is_host. rewrite Hh, Hp, bool_decide_eq_true_2 by done.
    by destruct (readyState_open ss (ws p)).
  - unfold is_host. rewrite Hh, Hp, bool_decide_eq_false_2 by congruence.
    by destruct (readyState_open ss (ws p)).
Qed.
End broadcast_host.

(** X3: in a room keyed by the ids of its players, a broadcast tells exactly
    one recipient that it is the host when the host is a member whose socket
    is open, and tells nobody when the host's socket is closed. *)
Theorem broadcast_one_host (ss : list session) (r : room) h p :
  wf_room r → host r = Some h → JsMap.get h (players r) = Some p →
  host_copies (broadcastGameState ss r)
  = if readyState_open ss (ws p) then 1%nat else 0%nat.
Proof.
  intros [Hnd Hid] Hh Hget. unfold broadcastGameState.
  by rewrite (host_copies_along ss r h (players r) Hh Hnd Hid), Hget.
Qed.

Section sends.
Implicit Types (σ : state) (ss : list session).

Lemma readyState_set_closed conn ss w :
  readyState_open (set_closed conn ss) w = true →
  readyState_open ss w = true ∧ w ≠ conn.
Proof.
  unfold readyState_open, set_closed.
  destruct (ss !! conn) as [s|] eqn:Hs.
  - destruct (decide (w = conn)) as [->|Hne].
    + rewrite list_lookup_insert_eq by (by eapply lookup_lt_Some). done.
    + rewrite list_lookup_insert_ne by done. done.
  - intros Ho. split; [done|]. intros ->. by rewrite Hs in Ho.
Qed.

Lemma leave_sends_open σ pid ref :
  Forall (λ wm, readyState_open (sessions σ) wm.1 = true) (leave σ pid ref).2.
Proof.
  unfold leave. destruct (heap σ !! ref) as [r|]; [|constructor].
  case_bool_decide; simpl; [constructor | apply broadcast_open].
Qed.
End sends.

(** X4: whatever a handler sends goes to a socket that was open when the
    event arrived, and the [close] handler sends nothing to the socket that
    closed. *)
Theorem step_sends_to_open σ ev σ' out :
  step σ ev = Some (σ', out) →
  Forall (λ wm, readyState_open (sessions σ) wm.1 = true
                ∧ ∀ conn, ev = Close conn → wm.1 ≠ conn) out.
Proof.
  intros Hstep.
  destruct ev as [now|conn data now draws|conn]; simpl in Hstep.
  - simplify_eq. constructor.
  - destruct (sessions σ !! conn) as [s|] eqn:Hs; simpl in Hstep; [|done].
    destruct (ws_open s) eqn:Ho; [|done].
    assert (readyState_open (sessions σ) conn = true) as Hconn
      by (unfold readyState_open; by rewrite Hs).
    eapply Forall_impl; [|intros wm H; split; [exact H | done]].
    destruct data as [|c| |pid mp rs|pid|].
    + unfold handle_createRoom in Hstep.
      destruct (generateRoomCode _ _) as [[c rest]|]; simpl in Hstep; simplify_eq.
      constructor; [done | apply broadcast_open].
    + unfold handle_joinRoom in Hstep.
      destruct (find_room σ c) as [[ref r]|]; [|simplify_eq; by repeat constructor].
      destruct (gameStarted r); [simplify_eq; by repeat constructor|].
      case_bool_decide; simplify_eq; [by repeat constructor|].
      constructor; [done | apply broadcast_open].
    + unfold handle_leaveRoom in Hstep.
      destruct (currentRoom s) as [ref|]; [|simplify_eq; constructor].
      pose proof (leave_sends_open σ (playerId s) ref) as Hl.
      destruct (leave σ (playerId s) ref) as [σ1 out1]. by simplify_eq.
    + unfold handle_updateSettings in Hstep.
      destruct (currentRoom s) as [ref|]; [|simplify_eq; constructor].
      destruct (heap σ !! ref) as [r|]; [|simplify_eq; constructor].
      case_bool_decide; simplify_eq; [apply broadcast_open | constructor].
    + unfold handle_startGame in Hstep.
      destruct (currentRoom s) as [ref|]; [|simplify_eq; constructor].
      destruct (heap σ !! ref) as [r|]; [|simplify_eq; constructor].
      destruct (_ && _); [|simplify_eq; constructor].
      destruct (assignRoles _ _ _) as [[a rest]|]; simpl in Hstep; simplify_eq.
      apply Forall_app. split; [apply sendResults_open | apply broadcast_open].
    + simplify_eq. constructor.
  - destruct (sessions σ !! conn) as [s|] eqn:Hs; simpl in Hstep; [|done].
    destruct (ws_open s) eqn:Ho; [|done]. injection Hstep as Hstep.
    unfold handle_close in Hstep.
    destruct (currentRoom s) as [ref|]; [|simplify_eq; constructor].
    pose proof (leave_sends_open (with_sessions (set_closed conn) σ) (playerId s) ref) as Hl.
    rewrite Hstep in Hl. simpl in Hl.
    eapply Forall_impl; [exact Hl|]. intros wm Hw.
    apply readyState_set_closed in Hw as [Hw Hne].
    split; [done|]. by intros conn' [= <-].
Qed.

(** ** What never changes in a room object *)

Section evolution.
Implicit Types (σ : state) (r : room).

Lemma room_evolves_refl r : room_evolves r r.
Proof. split; [done|]. intros Hs. split; [done|]. by intros x. Qed.

Lemma room_evolves_trans r1 r2 r3 :
  room_evolves r1 r2 → room_evolves r2 r3 → room_evolves r1 r3.
Proof.
  intros [Hc1 H1] [Hc2 H2]. split; [congruence|]. intros Hs.
  destruct (H1 Hs) as [Hs2 Hk1]. destruct (H2 Hs2) as [Hs3 Hk2].
  split; [done|]. intros x Hx. by apply Hk1, Hk2.
Qed.

Lemma leave_room_evolves pid r : room_evolves r (leave_room pid r).
Proof.
  split; [apply leave_room_code|]. intros Hs.
  destruct (leave_room_settings pid r) as (_ & _ & Hg). split; [congruence|].
  rewrite leave_room_players. intros x Hx.
  eapply elem_of_sublist; [done|]. apply fmap_sublist, delete_sublist.
Qed.

Lemma heap_insert_evolves (hp : list room) ref0 r0 r0' ref r :
  hp !! ref0 = Some r0 → room_evolves r0 r0' → hp !! ref = Some r →
  ∃ r', <[ref0 := r0']> hp !! ref = Some r' ∧ room_evolves r r'.
Proof.
  intros H0 Hev Hr. destruct (decide (ref = ref0)) as [->|Hne].
  - simplify_eq. exists r0'. split; [|done].
    apply list_lookup_insert_eq. by eapply lookup_lt_Some.
  - exists r. rewrite list_lookup_insert_ne by done.
    split; [done | apply room_evolves_refl].
Qed.

Lemma leave_evolves σ pid ref0 ref r :
  heap σ !! ref = Some r →
  ∃ r', heap (leave σ pid ref0).1 !! ref = Some r' ∧ room_evolves r r'.
Proof.
  intros Hr. destruct (heap σ !! ref0) as [r0|] eqn:H0.
  - destruct (leave_spec σ pid ref0 r0 H0) as (-> & _ & _).
    eapply heap_insert_evolves; [done | apply leave_room_evolves | done].
  - unfold leave. rewrite H0. exists r. split; [done | apply room_evolves_refl].
Qed.

Lemma step_room_evolves σ ev σ' out ref r :
  step σ ev = Some (σ', out) → heap σ !! ref = Some r →
  ∃ r', heap σ' !! ref = Some r' ∧ room_evolves r r'.
Proof.
  intros Hstep Hr.
  assert (∃ r', heap σ !! ref = Some r' ∧ room_evolves r r') as Hsame
    by (exists r; split; [done | apply room_evolves_refl]).
  destruct ev as [now|conn data now draws|conn]; simpl in Hstep.
  - by simplify_eq.
  - destruct (sessions σ !! conn) as [s|]; simpl in Hstep; [|done].
    destruct (ws_open s); [|done].
    destruct data as [|c| |pid mp rs|pid|].
    + unfold handle_createRoom in Hstep.
      destruct (generateRoomCode _ _) as [[c rest]|]; simpl in Hstep; simplify_eq.
      simpl. exists r. rewrite lookup_app_l by (by eapply lookup_lt_Some).
      split; [done | apply room_evolves_refl].
    + unfold handle_joinRoom in Hstep.
      destruct (find_room σ c) as [[ref0 r0]|] eqn:Hf; [|by simplify_eq].
      apply find_room_Some in Hf as [_ H0].
      destruct (gameStarted r0) eqn:Hg; [by simplify_eq|].
      case_bool_decide; simplify_eq; [done|]. simpl.
      eapply heap_insert_evolves; [done| |done].
      split; [done|]. simpl. by rewrite Hg.
    + unfold handle_leaveRoom in Hstep.
      destruct (currentRoom s) as [ref0|]; [|by simplify_eq].
      pose proof (leave_evolves σ (playerId s) ref0 ref r Hr) as Hl.
      destruct (leave σ (playerId s) ref0) as [σ1 out1]. by simplify_eq.
    + unfold handle_updateSettings in Hstep.
      destruct (currentRoom s) as [ref0|]; [|by simplify_eq].
      destruct (heap σ !! ref0) as [r0|] eqn:H0; [|by simplify_eq].
      case_bool_decide; simplify_eq; [|done]. simpl.
      eapply heap_insert_evolves; [done| |done].
      split; [done|]. intros Hg. split; [done|]. by intros x.
    + unfold handle_startGame in Hstep.
      destruct (currentRoom s) as [ref0|]; [|by simplify_eq].
      destruct (heap σ !! ref0) as [r0|] eqn:H0; [|by simplify_eq].
      destruct (_ && _); [|by simplify_eq].
      destruct (assignRoles _ _ _) as [[a rest]|]; simpl in Hstep; simplify_eq.
      simpl. eapply heap_insert_evolves; [done| |done].
      split; [done|]. intros _. split; [done|]. by intros x.
    + by simplify_eq.
  - destruct (sessions σ !! conn) as [s|]; simpl in Hstep; [|done].
    destruct (ws_open s); [|done]. injection Hstep as Hstep.
    unfold handle_close in Hstep.
    destruct (currentRoom s) as [ref0|]; [|by simplify_eq].
    pose proof (leave_evolves (with_sessions (set_closed conn) σ) (playerId s) ref0 ref r Hr) as Hl.
    by rewrite Hstep in Hl.
Qed.
End evolution.

(** X5: over any run a room object stays in the heap with the code it was
    created with; once [gameStarted] is true it stays true, and from then on
    nobody new becomes a member: the keys of the player map can only be
    removed. *)
Theorem run_rooms_evolve σ evs σ' out ref r :
  run σ evs = Some (σ', out) → heap σ !! ref = Some r →
  ∃ r', heap σ' !! ref = Some r'
        ∧ code r' = code r
        ∧ (gameStarted r = true →
           gameStarted r' = true
           ∧ JsMap.keys (players r') ⊆ JsMap.keys (players r)).
Proof.
  revert σ out r. induction evs as [|ev evs IH]; simpl; intros σ out r Hrun Hr.
  - simplify_eq. exists r. split; [done|]. apply room_evolves_refl.
  - destruct (step σ ev) as [[σ1 out1]|] eqn:Hs; simpl in Hrun; [|done].
    destruct (run σ1 evs) as [[σ2 out2]|] eqn:Hr2; simplify_eq/=.
    destruct (step_room_evolves _ _ _ _ _ _ Hs Hr) as (r1 & Hr1 & Hev1).
    destruct (IH σ1 out2 r1 Hr2 Hr1) as (r' & Hr' & Hev2).
    exists r'. split; [done|]. by apply (room_evolves_trans r r1 r').
Qed.

(** ** Joining *)

Section joining.
Context {V : Type}.
Implicit Types (m : JsMap.t V) (k : string) (v : V).

Lemma set_size m k v :
  JsMap.size (JsMap.set k v m)
  = if decide (k ∈ JsMap.keys m) then JsMap.size m else S (JsMap.size m).
Proof.
  unfold JsMap.size, JsMap.keys. induction m as [|[k' v'] m IH].
  - simpl. destruct (decide (k ∈ [])) as [Hin|_]; [|done].
    by apply elem_of_nil in Hin.
  - cbn [JsMap.set]. rewrite fmap_cons. cbn [fst].
    destruct (decide (k = k')) as [->|Hne].
    + rewrite decide_True; [done | left].
    + rewrite length_cons, IH. destruct (decide (k ∈ m.*1)) as [Hin|Hnin].
      * rewrite decide_True; [done | by right].
      * rewrite decide_False; [done|]. by intros [?|?]%elem_of_cons.
Qed.

Lemma delete_set_fresh m k v : k ∉ JsMap.keys m → JsMap.delete k (JsMap.set k v m) = m.
Proof.
  intros Hk. rewrite set_fresh by done. revert Hk. unfold JsMap.keys.
  induction m as [|[k' v'] m IH]; simpl.
  - intros _. by rewrite decide_True.
  - rewrite not_elem_of_cons. intros [Hne Hk].
    rewrite decide_False by done. by rewrite IH.
Qed.
End joining.

(** X6: a join that goes through never takes the room above [maxPlayers]:
    a newcomer makes the map one entry longer, a player that is already a
    member keeps the map as long as it was and has its record replaced, and
    the records of the other members are untouched. *)
Theorem join_respects_capacity σ conn s roomCode now draws ref r :
  sessions σ !! conn = Some s → ws_open s = true →
  rooms σ !! roomCode = Some ref → heap σ !! ref = Some r →
  gameStarted r = false → Z.of_nat (JsMap.size (players r)) < maxPlayers r →
  ∃ σ' out r',
    step σ (Message conn (joinRoomMsg roomCode) now draws) = Some (σ', out)
    ∧ heap σ' !! ref = Some r'
    ∧ Z.of_nat (JsMap.size (players r')) ≤ maxPlayers r'
    ∧ JsMap.size (players r')
      = (if decide (playerId s ∈ JsMap.keys (players r))
         then JsMap.size (players r) else S (JsMap.size (players r)))
    ∧ ∀ k, k ≠ playerId s →
           JsMap.get k (players r') = JsMap.get k (players r).
Proof.
  intros Hs Ho Hc Hr Hg Hroom. simpl. rewrite Hs. simpl. rewrite Ho.
  unfold handle_joinRoom.
  assert (find_room σ roomCode = Some (ref, r)) as -> by (by apply find_room_Some).
  rewrite Hg, bool_decide_eq_false_2 by lia.
  eexists _, _, _. split; [done|]. simpl.
  split; [apply list_lookup_insert_eq; by eapply lookup_lt_Some|]. simpl.
  rewrite set_size. split; [|split; [done|]].
  - case_decide; lia.
  - intros k Hk. by apply get_set_ne.
Qed.

(** ** Creating a room next to the others *)

(** X7: [createRoom] allocates one new room object and touches nothing
    else: every room object is as it was (the creator stays a member of the
    room it was attached to, if any), every registered code still maps to the
    same room, and the closures of the other connections are unchanged. *)
Theorem createRoom_leaves_rooms_alone σ conn now draws σ' out :
  step σ (Message conn createRoomMsg now draws) = Some (σ', out) →
  length (heap σ') = S (length (heap σ))
  ∧ (∀ ref r, heap σ !! ref = Some r → heap σ' !! ref = Some r)
  ∧ (∀ c ref, rooms σ !! c = Some ref → rooms σ' !! c = Some ref)
  ∧ (∀ conn', conn' ≠ conn → sessions σ' !! conn' = sessions σ !! conn').
Proof.
  simpl. destruct (sessions σ !! conn) as [s|]; simpl; [|done].
  destruct (ws_open s); [|done]. unfold handle_createRoom.
  destruct (generateRoomCode _ _) as [[c rest]|] eqn:Hg; simpl; [|done].
  intros [= <- <-]. simpl.
  apply generateRoomCode_Some in Hg as [Hnone _].
  split; [rewrite length_app; simpl; lia|]. split; [|split].
  - intros ref r Hr. by rewrite lookup_app_l by (by eapply lookup_lt_Some).
  - intros c' ref Hc. rewrite lookup_insert_ne; [done|]. congruence.
  - intros conn' Hne. by apply set_currentRoom_other.
Qed.

(** ** More on departures *)

Section departures_more.
Implicit Types (σ : state) (r : room) (s : session).

Lemma departure_sends σ conn ev s ref r σ' out :
  is_leave conn ev → sessions σ !! conn = Some s → currentRoom s = Some ref →
  heap σ !! ref = Some r →
  step σ ev = Some (σ', out) →
  ∃ ss0, out =
    if bool_decide (JsMap.size (players (leave_room (playerId s) r)) = 0%nat)
    then [] else broadcastGameState ss0 (leave_room (playerId s) r).
Proof.
  intros [(now & draws & ->)| ->] Hs Hcr Hr; simpl; rewrite Hs; simpl;
    (destruct (ws_open s); [|done]); intros [= Hstep].
  - unfold handle_leaveRoom in Hstep. rewrite Hcr in Hstep.
    destruct (leave_spec σ (playerId s) ref r Hr) as (_ & _ & Hout).
    destruct (leave σ (playerId s) ref) as [σ1 out1]. simplify_eq/=.
    by exists (sessions σ).
  - unfold handle_close in Hstep. rewrite Hcr in Hstep.
    destruct (leave_spec (with_sessions (set_closed conn) σ) (playerId s) ref r Hr)
      as (_ & _ & Hout).
    rewrite Hstep in Hout. simpl in Hout. by eexists.
Qed.

Lemma sort_by_joinTime_first (l1 l2 : list player) p :
  (∀ q, q ∈ l1 → joinTime p < joinTime q) →
  (∀ q, q ∈ l2 → joinTime p ≤ joinTime q) →
  ∃ rest, sort_by_joinTime (l1 ++ p :: l2) = p :: rest.
Proof.
  intros H1 H2. induction l1 as [|q l1 IH]; simpl.
  - destruct (sort_by_joinTime l2) as [|q0 rest0] eqn:Hs; simpl; [by eexists|].
    apply sort_by_joinTime_head in Hs as [Hin _].
    specialize (H2 q0 Hin). apply Z.leb_le in H2. rewrite H2. by eexists.
  - destruct IH as [rest Hrest]; [intros q' Hq'; apply H1; by right|].
    rewrite Hrest. simpl.
    assert (joinTime p < joinTime q) as Hlt by (apply H1; left).
    apply Z.leb_gt in Hlt. rewrite Hlt. by eexists.
Qed.
End departures_more.

(** X8: when the only member of a room leaves or disconnects, nothing is
    broadcast, the room's code is no longer registered, and a later
    [joinRoom] with that code is answered with the room-not-found error and
    changes nothing. *)
Theorem last_leave_then_join σ conn ev s ref r σ' out conn' s' now draws :
  is_leave conn ev → sessions σ !! conn = Some s →
  currentRoom s = Some ref → heap σ !! ref = Some r →
  JsMap.keys (players r) = [playerId s] →
  step σ ev = Some (σ', out) →
  sessions σ' !! conn' = Some s' → ws_open s' = true →
  out = [] ∧ rooms σ' !! code r = None
  ∧ step σ' (Message conn' (joinRoomMsg (code r)) now draws)
    = Some (σ', [(conn', error err_not_found)]).
Proof.
  intros Hev Hs Hcr Hr Hkeys Hstep Hs' Ho'.
  assert (JsMap.size (players (leave_room (playerId s) r)) = 0%nat) as Hsz.
  { rewrite leave_room_players. destruct (players r) as [|[k p] [|kv l]]; [done| |done].
    simpl in Hkeys. injection Hkeys as ->. simpl. by rewrite decide_True. }
  destruct (departure_room _ _ _ _ _ _ _ _ Hev Hs Hcr Hr Hstep) as [_ Hrooms].
  destruct (departure_sends _ _ _ _ _ _ _ _ Hev Hs Hcr Hr Hstep) as [ss0 Hout].
  rewrite bool_decide_eq_true_2 in Hrooms, Hout by done.
  assert (rooms σ' !! code r = None) as Hnone
    by (rewrite Hrooms; apply lookup_delete_eq).
  split; [done|]. split; [done|].
  simpl. rewrite Hs'. simpl. rewrite Ho'. unfold handle_joinRoom.
  by rewrite find_room_None.
Qed.

(** X9: a [leaveRoom] or a [close] changes one room object and at most one
    registry entry: in the departing connection's room the code, the
    settings and [gameStarted] stay, the records of the other members stay,
    and the host stays unless the departing player was the host; all other
    room objects and the entries of all other codes are untouched. *)
Theorem departure_frame σ conn ev s ref r σ' out :
  is_leave conn ev → sessions σ !! conn = Some s →
  currentRoom s = Some ref → heap σ !! ref = Some r →
  step σ ev = Some (σ', out) →
  ∃ r', heap σ' !! ref = Some r'
        ∧ code r' = code r ∧ maxPlayers r' = maxPlayers r
        ∧ roles r' = roles r ∧ gameStarted r' = gameStarted r
        ∧ (host r ≠ Some (playerId s) → host r' = host r)
        ∧ (∀ k, k ≠ playerId s →
                JsMap.get k (players r') = JsMap.get k (players r))
        ∧ (∀ ref', ref' ≠ ref → heap σ' !! ref' = heap σ !! ref')
        ∧ (∀ c, c ≠ code r → rooms σ' !! c = rooms σ !! c).
Proof.
  intros Hev Hs Hcr Hr Hstep.
  destruct (departure_room _ _ _ _ _ _ _ _ Hev Hs Hcr Hr Hstep) as [Hheap Hrooms].
  destruct (leave_room_settings (playerId s) r) as (Hmp & Hroles & Hg).
  exists (leave_room (playerId s) r).
  split; [rewrite Hheap; apply list_lookup_insert_eq; by eapply lookup_lt_Some|].
  split; [apply leave_room_code|]. split; [done|]. split; [done|]. split; [done|].
  split; [apply leave_room_host_other|]. split; [|split].
  - intros k Hk. rewrite leave_room_players. by apply get_delete_ne.
  - intros ref' Hne. rewrite Hheap. by apply list_lookup_insert_ne.
  - intros c Hc. rewrite Hrooms. case_bool_decide; [|done].
    by apply lookup_delete_ne.
Qed.

(** X10: when the host departs, the member that takes over is the first
    entry, in the order of the player map, among those with the smallest
    [joinTime]: every entry before it joined strictly later, every entry
    after it no earlier. *)
Theorem succession_first_among_oldest pid r l1 k p l2 :
  host r = Some pid →
  JsMap.delete pid (players r) = l1 ++ (k, p) :: l2 →
  (∀ q, q ∈ JsMap.values l1 → joinTime p < joinTime q) →
  (∀ q, q ∈ JsMap.values l2 → joinTime p ≤ joinTime q) →
  host (leave_room pid r) = Some (id p).
Proof.
  intros Hh Hdel H1 H2. unfold leave_room. simpl.
  rewrite bool_decide_eq_true_2 by done. rewrite Hdel.
  rewrite bool_decide_eq_true_2 by (unfold JsMap.size; rewrite length_app; simpl; lia).
  simpl. unfold JsMap.values. rewrite fmap_app, fmap_cons. simpl.
  destruct (sort_by_joinTime_first (l1.*2) (l2.*2) p H1 H2) as [rest Hrest].
  destruct (sort_by_joinTime _) as [|o rest'] eqn:Hsort.
  - done.
  - by injection Hrest as -> ->.
Qed.

(** X11: a newcomer that joins a room and leaves it again puts the room
    object and the registry back exactly as they were. *)
Theorem join_then_leave_restores σ conn s roomCode now draws ref r σ1 out1 now2 draws2 :
  sessions σ !! conn = Some s → ws_open s = true →
  rooms σ !! roomCode = Some ref → heap σ !! ref = Some r →
  gameStarted r = false → Z.of_nat (JsMap.size (players r)) < maxPlayers r →
  playerId s ∉ JsMap.keys (players r) → players r ≠ [] →
  host r ≠ Some (playerId s) →
  step σ (Message conn (joinRoomMsg roomCode) now draws) = Some (σ1, out1) →
  ∃ σ2 out2,
    step σ1 (Message conn leaveRoomMsg now2 draws2) = Some (σ2, out2)
    ∧ heap σ2 = heap σ ∧ rooms σ2 = rooms σ.
Proof.
  intros Hs Ho Hc Hr Hg Hroom Hfresh Hne Hh. simpl. rewrite Hs. simpl. rewrite Ho.
  unfold handle_joinRoom.
  assert (find_room σ roomCode = Some (ref, r)) as -> by (by apply find_room_Some).
  rewrite Hg, bool_decide_eq_false_2 by lia. intros [= <- <-]. simpl.
  assert (ref < length (heap σ))%nat as Hlt by (by eapply lookup_lt_Some).
  unfold set_currentRoom. rewrite Hs.
  rewrite list_lookup_insert_eq by (by eapply lookup_lt_Some). simpl. rewrite Ho.
  unfold handle_leaveRoom. simpl.
  set (r1 := set_players _ r).
  assert (leave_room (playerId s) r1 = r) as Hback.
  { unfold leave_room, r1. simpl. rewrite delete_set_fresh by done.
    rewrite bool_decide_eq_false_2 by done. simpl. by destruct r. }
  unfold leave. simpl. rewrite list_lookup_insert_eq by done. rewrite Hback.
  rewrite bool_decide_eq_false_2
    by (unfold JsMap.size; destruct (players r); simpl; [done | lia]).
  eexists _, _. split; [done|]. simpl.
  split; [|done]. rewrite list_insert_insert_eq. by apply list_insert_id.
Qed.

(** ** The closures of the connections *)

Section closures.
Implicit Types (σ : state) (ss : list session).

Lemma ids_set_currentRoom conn cr ss :
  playerId <$> set_currentRoom conn cr ss = playerId <$> ss.
Proof.
  unfold set_currentRoom. destruct (ss !! conn) as [s|] eqn:Hs; [|done].
  rewrite list_fmap_insert. apply list_insert_id.
  by rewrite list_lookup_fmap, Hs.
Qed.

Lemma ids_set_closed conn ss : playerId <$> set_closed conn ss = playerId <$> ss.
Proof.
  unfold set_closed. destruct (ss !! conn) as [s|] eqn:Hs; [|done].
  rewrite list_fmap_insert. apply list_insert_id.
  by rewrite list_lookup_fmap, Hs.
Qed.

(** Only [Connect] adds a closure, and no event changes a [playerId]. *)
Lemma step_session_ids σ ev σ' out :
  step σ ev = Some (σ', out) →
  playerId <$> sessions σ'
  = (playerId <$> sessions σ) ++ (pretty <$> connect_times [ev]).
Proof.
  intros Hstep.
  destruct ev as [now|conn data now draws|conn]; simpl in Hstep.
  - simplify_eq. simpl. by rewrite fmap_app.
  - simpl. rewrite app_nil_r.
    destruct (sessions σ !! conn) as [s|]; simpl in Hstep; [|done].
    destruct (ws_open s); [|done].
    destruct data as [|c| |pid mp rs|pid|].
    + unfold handle_createRoom in Hstep.
      destruct (generateRoomCode _ _) as [[c rest]|]; simpl in Hstep; simplify_eq.
      apply ids_set_currentRoom.
    + unfold handle_joinRoom in Hstep.
      destruct (find_room σ c) as [[ref r]|]; [|by simplify_eq].
      destruct (gameStarted r); [by simplify_eq|].
      case_bool_decide; simplify_eq; [done|]. apply ids_set_currentRoom.
    + unfold handle_leaveRoom in Hstep.
      destruct (currentRoom s) as [ref|]; [|by simplify_eq].
      pose proof (leave_sessions σ (playerId s) ref) as Hss.
      destruct (leave σ (playerId s) ref) as [σ1 out1]. simplify_eq/=.
      by rewrite ids_set_currentRoom, Hss.
    + unfold handle_updateSettings in Hstep.
      destruct (currentRoom s) as [ref|]; [|by simplify_eq].
      destruct (heap σ !! ref) as [r|]; [|by simplify_eq].
      by case_bool_decide; simplify_eq.
    + unfold handle_startGame in Hstep.
      destruct (currentRoom s) as [ref|]; [|by simplify_eq].
      destruct (heap σ !! ref) as [r|]; [|by simplify_eq].
      destruct (_ && _); [|by simplify_eq].
      by destruct (assignRoles _ _ _) as [[a rest]|]; simpl in Hstep; simplify_eq.
    + by simplify_eq.
  - simpl. rewrite app_nil_r.
    destruct (sessions σ !! conn) as [s|]; simpl in Hstep; [|done].
    destruct (ws_open s); [|done]. injection Hstep as Hstep.
    unfold handle_close in Hstep.
    destruct (currentRoom s) as [ref|].
    + pose proof (leave_sessions (with_sessions (set_closed conn) σ) (playerId s) ref) as Hss.
      rewrite Hstep in Hss. simpl in Hss. rewrite Hss. apply ids_set_closed.
    + simplify_eq. apply ids_set_closed.
Qed.

Lemma connect_times_cons ev evs :
  connect_times (ev :: evs) = connect_times [ev] ++ connect_times evs.
Proof. unfold connect_times. simpl. by destruct ev. Qed.

Lemma run_session_ids σ evs : ∀ σ' out,
  run σ evs = Some (σ', out) →
  playerId <$> sessions σ'
  = (playerId <$> sessions σ) ++ (pretty <$> connect_times evs).
Proof.
  revert σ. induction evs as [|ev evs IH]; intros σ σ' out Hrun; simpl in Hrun.
  - simplify_eq. by rewrite app_nil_r.
  - destruct (step σ ev) as [[σ1 out1]|] eqn:Hs; simpl in Hrun; [|done].
    destruct (run σ1 evs) as [[σ2 out2]|] eqn:Hr2; simpl in Hrun; simplify_eq.
    rewrite (IH _ _ _ Hr2), (step_session_ids _ _ _ _ Hs).
    by rewrite (connect_times_cons ev evs), fmap_app, app_assoc.
Qed.

(** A closure that is closed no longer has any event. *)
Lemma step_closed_session σ ev σ' out conn s :
  step σ ev = Some (σ', out) → sessions σ !! conn = Some s →
  ws_open s = false → sessions σ' !! conn = Some s.
Proof.
  intros Hstep Hs Hc. eapply step_other_session; [done| |done].
  destruct ev as [now|conn' data now draws|conn']; simpl in *;
    [discriminate|..];
    intros Heq; injection Heq as ->; rewrite Hs in Hstep; simpl in Hstep;
    by rewrite Hc in Hstep.
Qed.
End closures.

(** X12: over any run the closures of the connections are only added to, in
    the order of the [Connect] events, each with the decimal string of its
    [Date.now()] as [playerId]; no event changes the [playerId] of a
    connection, and the closure of a connection that has closed never
    changes again. *)
Theorem run_sessions_persist σ evs σ' out :
  run σ evs = Some (σ', out) →
  playerId <$> sessions σ'
  = (playerId <$> sessions σ) ++ (pretty <$> connect_times evs)
  ∧ ∀ conn s, sessions σ !! conn = Some s →
      ∃ s', sessions σ' !! conn = Some s' ∧ playerId s' = playerId s
            ∧ (ws_open s = false → s' = s).
Proof.
  intros Hrun. split; [by eapply run_session_ids|].
  revert σ out Hrun. induction evs as [|ev evs IH]; simpl; intros σ out Hrun conn s Hs.
  - simplify_eq. by exists s.
  - destruct (step σ ev) as [[σ1 out1]|] eqn:Hstep; simpl in Hrun; [|done].
    destruct (run σ1 evs) as [[σ2 out2]|] eqn:Hr2; simplify_eq/=.
    assert (∃ s1, sessions σ1 !! conn = Some s1 ∧ playerId s1 = playerId s
                  ∧ (ws_open s = false → s1 = s)) as (s1 & Hs1 & Hid1 & Hc1).
    { pose proof (step_session_ids _ _ _ _ Hstep) as Hids.
      assert (is_Some (sessions σ1 !! conn)) as [s1 Hs1].
      { apply lookup_lt_is_Some. apply lookup_lt_Some in Hs.
        apply (f_equal length) in Hids.
        rewrite length_app, !length_fmap in Hids. lia. }
      exists s1. split; [done|]. split.
      - apply (f_equal (λ l, l !! conn)) in Hids.
        rewrite lookup_app_l in Hids
          by (rewrite length_fmap; by eapply lookup_lt_Some).
        rewrite !list_lookup_fmap, Hs, Hs1 in Hids. by injection Hids.
      - intros Hc. pose proof (step_closed_session _ _ _ _ _ _ Hstep Hs Hc).
        congruence. }
    destruct (IH σ1 out2 Hr2 conn s1 Hs1) as (s' & Hs' & Hid' & Hc').
    exists s'. split; [done|]. split; [congruence|].
    intros Hc. specialize (Hc1 Hc). subst s1. by apply Hc'.
Qed.

(** ** The room code generator at its limits *)

(** X13: [generateRoomCode] skips the draws whose code is taken and returns
    the code of the first draw whose code is free, leaving the later draws
    unread. *)
Theorem generateRoomCode_first_free (rms : gmap string nat) ds1 d ds2 :
  Forall (λ d', is_Some (rms !! code_of_draw d')) ds1 →
  rms !! code_of_draw d = None →
  generateRoomCode rms (ds1 ++ d :: ds2) = Some (code_of_draw d, ds2).
Proof.
  intros Htaken Hfree. induction Htaken as [|d' ds1 Hd' _ IH]; simpl.
  - rewrite decide_False; [done|]. rewrite Hfree. by intros [? ?].
  - by rewrite decide_True.
Qed.

(** X14: when all the 9000 codes of [1000, 9999] are registered the loop of
    [generateRoomCode] has no exit: whatever is drawn, and however often,
    no code is returned and the [createRoom] request is never answered. *)
Theorem generateRoomCode_saturated σ conn now draws :
  (∀ n, 1000 ≤ n ≤ 9999 → is_Some (rooms σ !! pretty n)) →
  generateRoomCode (rooms σ) draws = None
  ∧ step σ (Message conn createRoomMsg now draws) = None.
Proof.
  intros Hfull.
  assert (generateRoomCode (rooms σ) draws = None) as Hg.
  { induction draws as [|d draws IH]; simpl; [done|].
    rewrite decide_True; [done|].
    destruct (code_of_draw_range d) as (n & Hn & ->). by apply Hfull. }
  split; [done|]. simpl. destruct (sessions σ !! conn) as [s|]; simpl; [|done].
  destruct (ws_open s); [|done]. unfold handle_createRoom. by rewrite Hg.
Qed.

(** ** When no two connections share a [playerId] *)

Section unique_ids.
Implicit Types (σ : state) (hp : list room) (ss : list session).

Lemma member_at_app hp l ref pid conn :
  member_at hp ref pid conn → member_at (hp ++ l) ref pid conn.
Proof.
  intros (r & p & Hr & Hrest). exists r, p. split; [|done].
  by rewrite lookup_app_l by (by eapply lookup_lt_Some).
Qed.

Lemma member_at_insert hp ref0 r0 r0' ref pid conn :
  hp !! ref0 = Some r0 →
  JsMap.get pid (players r0') = JsMap.get pid (players r0) →
  member_at hp ref pid conn → member_at (<[ref0 := r0']> hp) ref pid conn.
Proof.
  intros H0 Hget (r & p & Hr & Hp & Hrest).
  destruct (decide (ref = ref0)) as [->|Hne].
  - simplify_eq. exists r0', p. rewrite Hget.
    by rewrite list_lookup_insert_eq by (by eapply lookup_lt_Some).
  - exists r, p. by rewrite list_lookup_insert_ne.
Qed.

Lemma distinct_ids ss c1 c2 s1 s2 :
  NoDup (playerId <$> ss) → ss !! c1 = Some s1 → ss !! c2 = Some s2 →
  c1 ≠ c2 → playerId s1 ≠ playerId s2.
Proof.
  intros Hnd H1 H2 Hne Heq. apply Hne.
  eapply (NoDup_lookup _ _ _ (playerId s1) Hnd).
  - by rewrite list_lookup_fmap, H1.
  - by rewrite list_lookup_fmap, H2, Heq.
Qed.

Lemma set_currentRoom_lookup conn cr ss s :
  ss !! conn = Some s →
  set_currentRoom conn cr ss !! conn = Some (Session (playerId s) cr (ws_open s)).
Proof.
  intros Hs. unfold set_currentRoom. rewrite Hs.
  apply list_lookup_insert_eq. by eapply lookup_lt_Some.
Qed.

Lemma set_closed_lookup conn ss s :
  ss !! conn = Some s →
  set_closed conn ss !! conn = Some (Session (playerId s) (currentRoom s) false).
Proof.
  intros Hs. unfold set_closed. rewrite Hs.
  apply list_lookup_insert_eq. by eapply lookup_lt_Some.
Qed.

Lemma leave_member_at σ pid0 ref0 ref pid conn :
  pid ≠ pid0 → member_at (heap σ) ref pid conn →
  member_at (heap (leave σ pid0 ref0).1) ref pid conn.
Proof.
  intros Hne Hm. destruct (heap σ !! ref0) as [r0|] eqn:H0.
  - destruct (leave_spec σ pid0 ref0 r0 H0) as (-> & _ & _).
    eapply member_at_insert; [done| |done].
    rewrite leave_room_players. by apply get_delete_ne.
  - unfold leave. by rewrite H0.
Qed.

Lemma leave_members_registered σ pid0 ref0 :
  members_registered σ →
  (∀ r0, heap σ !! ref0 = Some r0 → players r0 ≠ []) →
  members_registered (leave σ pid0 ref0).1.
Proof.
  intros HJ Hne0. destruct (heap σ !! ref0) as [r0|] eqn:H0;
    [|unfold leave; by rewrite H0].
  destruct (leave_spec σ pid0 ref0 r0 H0) as (Hheap & Hrooms & _).
  intros ref r. rewrite Hheap, Hrooms. intros Hr Hne.
  destruct (decide (ref = ref0)) as [->|Hdiff].
  - rewrite list_lookup_insert_eq in Hr by (by eapply lookup_lt_Some).
    simplify_eq. rewrite leave_room_code.
    rewrite bool_decide_eq_false_2.
    + apply HJ; [done|]. exact (Hne0 r0 eq_refl).
    + unfold JsMap.size. destruct (players (leave_room pid0 r0)); simpl; [done | lia].
  - rewrite list_lookup_insert_ne in Hr by done.
    pose proof (HJ ref r Hr Hne) as Hreg.
    case_bool_decide; [|done].
    rewrite lookup_delete_ne; [done|]. intros Hcode.
    pose proof (HJ ref0 r0 H0 (Hne0 r0 eq_refl)) as Hreg0. congruence.
Qed.

Lemma member_at_nonempty hp ref pid conn r :
  member_at hp ref pid conn → hp !! ref = Some r → players r ≠ [].
Proof.
  intros (r' & p & Hr' & Hp & _) Hr. simplify_eq. intros Hnil.
  by rewrite Hnil in Hp.
Qed.

Lemma unique_step σ ev σ' out :
  inv σ → NoDup (playerId <$> sessions σ) →
  members_registered σ → attached_is_member σ →
  step σ ev = Some (σ', out) →
  members_registered σ' ∧ attached_is_member σ'.
Proof.
  intros [_ Hreg] Hnd HJ HK Hstep.
  destruct ev as [now|conn data now draws|conn]; simpl in Hstep.
  - simplify_eq. split; [done|]. intros conn s ref Hs Ho Hcr. simpl in *.
    apply lookup_app_Some in Hs as [Hs|[_ Hs]]; [by eapply HK|].
    destruct (conn - length (sessions σ))%nat as [|n]; simpl in Hs; [|done].
    by simplify_eq.
  - destruct (sessions σ !! conn) as [s|] eqn:Hs; simpl in Hstep; [|done].
    destruct (ws_open s) eqn:Ho; [|done].
    destruct data as [|c| |pid mp rs|pid|].
    + unfold handle_createRoom in Hstep.
      destruct (generateRoomCode _ _) as [[c rest]|] eqn:Hg; simpl in Hstep; simplify_eq.
      apply generateRoomCode_Some in Hg as [Hnone _]. split.
      * intros ref r Hr Hne. simpl in *.
        apply lookup_app_Some in Hr as [Hr|[Hlen Hr]].
        -- pose proof (HJ ref r Hr Hne) as Hc.
           rewrite lookup_insert_ne; [done|]. congruence.
        -- destruct (ref - length (heap σ))%nat as [|n] eqn:Hn; simpl in Hr; [|done].
           simplify_eq. simpl. assert (ref = length (heap σ)) as -> by lia.
           apply lookup_insert_eq.
      * intros conn' s' ref Hs' Ho' Hcr'. simpl in *.
        destruct (decide (conn' = conn)) as [->|Hne].
        -- rewrite (set_currentRoom_lookup _ _ _ _ Hs) in Hs'. simplify_eq. simpl in *.
           simplify_eq. eexists _, _. split; [by apply list_lookup_middle|].
           simpl. by rewrite decide_True.
        -- rewrite set_currentRoom_other in Hs' by done.
           apply member_at_app. by eapply HK.
    + unfold handle_joinRoom in Hstep.
      destruct (find_room σ c) as [[ref0 r0]|] eqn:Hf; [|by simplify_eq].
      apply find_room_Some in Hf as [Hc H0].
      destruct (gameStarted r0); [by simplify_eq|].
      case_bool_decide; simplify_eq; [done|].
      destruct (Hreg c ref0 Hc) as (r0' & H0' & Hcode & _). simplify_eq. split.
      * intros ref r Hr Hne. simpl in *.
        destruct (decide (ref = ref0)) as [->|Hdiff].
        -- rewrite list_lookup_insert_eq in Hr by (by eapply lookup_lt_Some).
           by simplify_eq.
        -- rewrite list_lookup_insert_ne in Hr by done. by apply HJ.
      * intros conn' s' ref Hs' Ho' Hcr'. simpl in *.
        destruct (decide (conn' = conn)) as [->|Hne].
        -- rewrite (set_currentRoom_lookup _ _ _ _ Hs) in Hs'. simplify_eq. simpl in *.
           simplify_eq. eexists _, _.
           split; [apply list_lookup_insert_eq; by eapply lookup_lt_Some|].
           simpl. by rewrite get_set_eq.
        -- rewrite set_currentRoom_other in Hs' by done.
           eapply member_at_insert; [done| |by eapply HK].
           simpl. apply get_set_ne. by eapply distinct_ids.
    + unfold handle_leaveRoom in Hstep.
      destruct (currentRoom s) as [ref0|] eqn:Hcr; [|by simplify_eq].
      pose proof (leave_members_registered σ (playerId s) ref0 HJ) as HJ'.
      pose proof (leave_sessions σ (playerId s) ref0) as Hss.
      pose proof (λ ref pid c Hne, leave_member_at σ (playerId s) ref0 ref pid c Hne) as HK'.
      destruct (leave σ (playerId s) ref0) as [σ1 out1]. simplify_eq/=. split.
      * destruct σ1. apply HJ'. intros r0 H0.
        by eapply member_at_nonempty; [eapply HK|].
      * intros conn' s' ref Hs' Ho' Hcr'. simpl in *. rewrite Hss in Hs'.
        destruct (decide (conn' = conn)) as [->|Hne].
        -- rewrite (set_currentRoom_lookup _ _ _ _ Hs) in Hs'. by simplify_eq.
        -- rewrite set_currentRoom_other in Hs' by done.
           apply HK'; [by eapply distinct_ids | by eapply HK].
    + unfold handle_updateSettings in Hstep.
      destruct (currentRoom s) as [ref0|]; [|by simplify_eq].
      destruct (heap σ !! ref0) as [r0|] eqn:H0; [|by simplify_eq].
      case_bool_decide; simplify_eq; [|done]. split.
      * intros ref r Hr Hne. simpl in *.
        destruct (decide (ref = ref0)) as [->|Hdiff].
        -- rewrite list_lookup_insert_eq in Hr by (by eapply lookup_lt_Some).
           simplify_eq. by apply (HJ ref0 r0).
        -- rewrite list_lookup_insert_ne in Hr by done. by apply HJ.
      * intros conn' s' ref Hs' Ho' Hcr'. simpl in *.
        eapply member_at_insert; [done|done|by eapply HK].
    + unfold handle_startGame in Hstep.
      destruct (currentRoom s) as [ref0|]; [|by simplify_eq].
      destruct (heap σ !! ref0) as [r0|] eqn:H0; [|by simplify_eq].
      destruct (_ && _); [|by simplify_eq].
      destruct (assignRoles _ _ _) as [[a rest]|]; simpl in Hstep; simplify_eq. split.
      * intros ref r Hr Hne. simpl in *.
        destruct (decide (ref = ref0)) as [->|Hdiff].
        -- rewrite list_lookup_insert_eq in Hr by (by eapply lookup_lt_Some).
           simplify_eq. by apply (HJ ref0 r0).
        -- rewrite list_lookup_insert_ne in Hr by done. by apply HJ.
      * intros conn' s' ref Hs' Ho' Hcr'. simpl in *.
        eapply member_at_insert; [done|done|by eapply HK].
    + by simplify_eq.
  - destruct (sessions σ !! conn) as [s|] eqn:Hs; simpl in Hstep; [|done].
    destruct (ws_open s) eqn:Ho; [|done]. injection Hstep as Hstep.
    unfold handle_close in Hstep.
    destruct (currentRoom s) as [ref0|] eqn:Hcr.
    + set (σ0 := with_sessions (set_closed conn) σ) in *.
      pose proof (leave_members_registered σ0 (playerId s) ref0 HJ) as HJ'.
      pose proof (leave_sessions σ0 (playerId s) ref0) as Hss.
      pose proof (λ ref pid c Hne, leave_member_at σ0 (playerId s) ref0 ref pid c Hne) as HK'.
      rewrite Hstep in HJ', Hss, HK'. simpl in *. split.
      * apply HJ'. intros r0 H0. by eapply member_at_nonempty; [eapply HK|].
      * intros conn' s' ref Hs' Ho' Hcr'. rewrite Hss in Hs'.
        destruct (decide (conn' = conn)) as [->|Hne].
        -- rewrite (set_closed_lookup _ _ _ Hs) in Hs'. by simplify_eq.
        -- rewrite set_closed_other in Hs' by done.
           apply HK'; [by eapply distinct_ids | by eapply HK].
    + simplify_eq. split; [done|].
      intros conn' s' ref Hs' Ho' Hcr'. simpl in *.
      destruct (decide (conn' = conn)) as [->|Hne].
      * rewrite (set_closed_lookup _ _ _ Hs) in Hs'. by simplify_eq.
      * rewrite set_closed_other in Hs' by done. by eapply HK.
Qed.

Lemma unique_run σ evs : ∀ σ' out,
  reachable σ → NoDup (playerId <$> sessions σ') →
  members_registered σ → attached_is_member σ →
  run σ evs = Some (σ', out) →
  members_registered σ' ∧ attached_is_member σ'.
Proof.
  revert σ. induction evs as [|ev evs IH]; intros σ σ' out Hreach Hnd HJ HK Hrun;
    simpl in Hrun.
  - by simplify_eq.
  - destruct (step σ ev) as [[σ1 out1]|] eqn:Hs; simpl in Hrun; [|done].
    destruct (run σ1 evs) as [[σ2 out2]|] eqn:Hr2; simpl in Hrun; simplify_eq.
    pose proof (run_session_ids _ _ _ _ Hr2) as Hids2.
    pose proof (step_session_ids _ _ _ _ Hs) as Hids1.
    rewrite Hids2 in Hnd. pose proof Hnd as Hnd1. apply NoDup_app in Hnd1 as [Hnd1 _].
    pose proof Hnd1 as Hnd0. rewrite Hids1 in Hnd0. apply NoDup_app in Hnd0 as [Hnd0 _].
    destruct (unique_step σ ev σ1 out1 (reachable_inv σ Hreach) Hnd0 HJ HK Hs) as [HJ1 HK1].
    eapply (IH σ1); [by eapply reachable_step| |done..].
    by rewrite Hids2.
Qed.
End unique_ids.

(** X15: when the connections of a run were accepted at pairwise different
    [Date.now()] values, then after the run every room object that has a
    member is the one registered under its code (so two rooms with members
    never carry the same code), and every open connection with a
    [currentRoom] is a member of that room, under its own [playerId] and
    with its own socket. *)
Theorem unique_ids_members_registered evs σ out :
  run init evs = Some (σ, out) → NoDup (connect_times evs) →
  (∀ ref r, heap σ !! ref = Some r → players r ≠ [] →
     rooms σ !! code r = Some ref)
  ∧ (∀ ref1 ref2 r1 r2,
       heap σ !! ref1 = Some r1 → heap σ !! ref2 = Some r2 →
       players r1 ≠ [] → players r2 ≠ [] → code r1 = code r2 → ref1 = ref2)
  ∧ (∀ conn s ref, sessions σ !! conn = Some s → ws_open s = true →
       currentRoom s = Some ref →
       ∃ r p, heap σ !! ref = Some r
              ∧ JsMap.get (playerId s) (players r) = Some p
              ∧ id p = playerId s ∧ ws p = conn).
Proof.
  intros Hrun Hnd.
  destruct (unique_run init evs σ out reachable_init) as [HJ HK]; [|done|done|done|].
  { rewrite (run_session_ids _ _ _ _ Hrun). simpl.
    apply NoDup_fmap_2; [apply _ | done]. }
  split; [done|]. split; [|done].
  intros ref1 ref2 r1 r2 H1 H2 Hne1 Hne2 Hcode.
  pose proof (HJ ref1 r1 H1 Hne1) as Hreg1.
  pose proof (HJ ref2 r2 H2 Hne2) as Hreg2. congruence.
Qed.

(** X16: when two connections carry the same [playerId] and sit in the same
    room, they share one entry of its player map; as soon as one of them
    leaves or disconnects, the other is still attached to the room but is no
    longer among its members. *)
Theorem shared_id_departure_strands_other σ c1 c2 s1 s2 ref r ev σ' out :
  c1 ≠ c2 → sessions σ !! c1 = Some s1 → sessions σ !! c2 = Some s2 →
  playerId s1 = playerId s2 →
  currentRoom s1 = Some ref → currentRoom s2 = Some ref →
  heap σ !! ref = Some r → NoDup (JsMap.keys (players r)) →
  is_leave c1 ev → step σ ev = Some (σ', out) →
  sessions σ' !! c2 = Some s2
  ∧ ∃ r', heap σ' !! ref = Some r'
          ∧ JsMap.get (playerId s2) (players r') = None.
Proof.
  intros Hne Hs1 Hs2 Hid Hcr1 Hcr2 Hr Hnd Hev Hstep. split.
  - eapply step_other_session; [done| |done].
    destruct Hev as [(now & draws & ->)| ->]; simpl; congruence.
  - destruct (departure_room _ _ _ _ _ _ _ _ Hev Hs1 Hcr1 Hr Hstep) as [Hheap _].
    exists (leave_room (playerId s1) r).
    split; [rewrite Hheap; apply list_lookup_insert_eq; by eapply lookup_lt_Some|].
    rewrite leave_room_players, <-Hid. apply get_None_keys.
    clear -Hnd. unfold JsMap.keys in *.
    induction (players r) as [|[k p] l IH]; simpl; [apply not_elem_of_nil|].
    apply NoDup_cons in Hnd as [Hk Hnd]. case_decide as Heq.
    + by subst.
    + rewrite fmap_cons. apply not_elem_of_cons. split; [done | by apply IH].
Qed.

(** ** What [startGame] reveals *)

Section reveal.
Implicit Types (ps labels : list string) (rs : list role).

Lemma assign_loop_draws ps : ∀ allRoles acc draws a rest,
  assign_loop ps allRoles acc draws = Some (a, rest) →
  (length ps ≤ length draws)%nat.
Proof.
  induction ps as [|p ps IH]; intros allRoles acc draws a rest; simpl; [lia|].
  destruct draws as [|d draws]; [done|]. intros H%IH. simpl. lia.
Qed.

Lemma expand_roles_names rs nm :
  nm ∈ expand_roles rs → ∃ ro, ro ∈ rs ∧ name ro = nm ∧ (0 < count ro)%nat.
Proof.
  induction rs as [|ro rs IH]; [by intros ?%elem_of_nil|].
  rewrite expand_roles_cons, elem_of_app.
  intros [[-> Hn]%elem_of_replicate | (ro' & Hin & Hrest)%IH].
  - exists ro. split; [left|]. split; [done | lia].
  - exists ro'. split; [by right | done].
Qed.

Lemma get_zip_labels ps labels k :
  length ps = length labels → k ∈ ps →
  ∃ nm, JsMap.get k (zip ps (Some <$> labels)) = Some (Some nm) ∧ nm ∈ labels.
Proof.
  revert labels. induction ps as [|p ps IH]; intros [|nm labels] Hlen Hk;
    simpl in *; try done.
  - by apply elem_of_nil in Hk.
  - destruct (decide (k = p)) as [->|Hne].
    + exists nm. split; [done | left].
    + apply elem_of_cons in Hk as [?|Hk]; [done|].
      destruct (IH labels ltac:(lia) Hk) as (nm' & Hget & Hin).
      exists nm'. split; [done | by right].
Qed.
End reveal.

(** X17: when the pool holds at least as many labels as the room has
    members, every [gameResult] that [startGame] sends carries a role, never
    [undefined], and that role is the name of an entry of the pool with a
    positive count. *)
Theorem startGame_reveals_roles σ conn s ref r pid now draws σ' out :
  sessions σ !! conn = Some s → ws_open s = true →
  currentRoom s = Some ref → heap σ !! ref = Some r →
  host r = Some pid → gameStarted r = false →
  NoDup (JsMap.keys (players r)) →
  (JsMap.size (players r) ≤ total_count (roles r))%nat →
  step σ (Message conn (startGameMsg pid) now draws) = Some (σ', out) →
  Forall (λ wr, ∃ nm ro, wr.2 = Some nm ∧ ro ∈ roles r
                         ∧ name ro = nm ∧ (0 < count ro)%nat)
         (results_of out).
Proof.
  intros Hs Ho Hcr Hr Hh Hg Hnd Htot. simpl. rewrite Hs. simpl. rewrite Ho.
  unfold handle_startGame. rewrite Hcr, Hr, Hg, bool_decide_eq_true_2 by done.
  simpl. destruct (assignRoles _ _ _) as [[a rest]|] eqn:Ha; simpl; [|done].
  intros [= <- <-].
  rewrite results_of_app, results_of_sendResults, results_of_broadcast, app_nil_r.
  assert (length (JsMap.keys (players r)) = JsMap.size (players r)) as Hlen
    by (unfold JsMap.keys, JsMap.size; by rewrite length_fmap).
  destruct (assignRoles_spec (JsMap.keys (players r)) (roles r) draws Hnd)
    as (labels & leftover & Heq & Hperm & Hll).
  { unfold assignRoles in Ha. by apply assign_loop_draws in Ha. }
  rewrite Ha in Heq. injection Heq as -> _.
  replace (length (JsMap.keys (players r)) - total_count (roles r))%nat
    with 0%nat by lia.
  simpl. rewrite app_nil_r.
  apply Forall_forall. intros [w ro] Hin.
  apply list_elem_of_omap in Hin as ([k p] & Hkp & Hsend). simpl in Hsend.
  destruct (readyState_open (sessions σ) (ws p)); [|done].
  injection Hsend as <- <-.
  destruct (get_zip_labels (JsMap.keys (players r)) labels k) as (nm & Hget & Hnm).
  { lia. }
  { unfold JsMap.keys. apply list_elem_of_fmap. by exists (k, p). }
  assert (nm ∈ expand_roles (roles r)) as Hpool
    by (rewrite <-Hperm; apply elem_of_app; by left).
  apply expand_roles_names in Hpool as (ro' & Hro & Hname & Hcount).
  exists nm, ro'. unfold assigned. simpl. by rewrite Hget.
Qed.

(** ** The statements above on the scenarios *)

Lemma twins_run : fst <$> run init twins_trace = Some twins.
Proof. vm_compute. reflexivity. Qed.

Lemma lobby_room_wf : wf_room lobby_room.
Proof.
  split; simpl; [|by repeat constructor].
  apply NoDup_cons. split; [|by apply NoDup_two].
  by intros [?|[?|?%elem_of_nil]%elem_of_cons]%elem_of_cons.
Qed.

Lemma list_to_map_codes (l : list Z) n :
  n ∈ l →
  is_Some ((list_to_map ((λ n : Z, (pretty n, 0%nat)) <$> l) : gmap string nat)
             !! pretty n).
Proof.
  intros Hn. apply elem_of_dom.
  rewrite dom_list_to_map_L, elem_of_list_to_set, <-list_fmap_compose.
  apply list_elem_of_fmap. by exists n.
Qed.

Lemma saturated_registry_full n :
  1000 ≤ n ≤ 9999 → is_Some (saturated_registry !! pretty n).
Proof.
  intros Hn. unfold saturated_registry.
  apply (list_to_map_codes (seqZ 1000 9000) n). apply elem_of_seqZ. lia.
Qed.

(** X1, on a machine with a loopback interface and two network cards. *)
Lemma getIPAddresses_witness :
  getIPAddresses sample_interfaces = ["192.168.0.7"; "10.0.0.3"].
Proof. rewrite (proj1 (getIPAddresses_spec sample_interfaces)). reflexivity. Defined.

(** X2, on the room whose host has a closed socket. *)
Lemma broadcast_recipients_witness :
  (broadcastGameState (sessions absent_host)
     (Room "1000" (Some "1") 5 default_roles
           [("1", Player "1" 0 10); ("2", Player "2" 1 11)] false)).*1
  = [1%nat].
Proof. rewrite (proj1 (broadcast_recipients _ _)). reflexivity. Defined.

(** X3, on the lobby of three. *)
Lemma broadcast_one_host_witness :
  host_copies (broadcastGameState (sessions lobby) lobby_room) = 1%nat.
Proof.
  rewrite (broadcast_one_host (sessions lobby) lobby_room "1" (Player "1" 0 10)).
  - reflexivity.
  - apply lobby_room_wf.
  - reflexivity.
  - reflexivity.
Defined.

(** X4, on the host of the lobby disconnecting. *)
Lemma step_sends_to_open_witness :
  ∃ σ' out,
    step lobby (Close 0) = Some (σ', out)
    ∧ Forall (λ wm, readyState_open (sessions lobby) wm.1 = true
                    ∧ ∀ conn, Close 0 = Close conn → wm.1 ≠ conn) out.
Proof.
  eexists _, _. split; [vm_compute; reflexivity|].
  eapply (step_sends_to_open lobby (Close 0)). vm_compute. reflexivity.
Defined.

(** X5, on a started room that a newcomer tries to join and whose host
    changes the settings. *)
Lemma run_rooms_evolve_witness :
  ∃ σ' out,
    run started [Connect 3; Message 1 (joinRoomMsg "1000") 20 [];
                 Message 0 (updateSettingsMsg "1" 9 []) 21 []] = Some (σ', out)
    ∧ ∃ r', heap σ' !! 0%nat = Some r'
            ∧ code r' = "1000"
            ∧ (true = true →
               gameStarted r' = true ∧ JsMap.keys (players r') ⊆ ["1"]).
Proof.
  eexists _, _. split; [vm_compute; reflexivity|].
  eapply (run_rooms_evolve started
            [Connect 3; Message 1 (joinRoomMsg "1000") 20 [];
             Message 0 (updateSettingsMsg "1" 9 []) 21 []] _ _ 0%nat
            (Room "1000" (Some "1") 5 default_roles [("1", Player "1" 0 10)] true)).
  - vm_compute. reflexivity.
  - reflexivity.
Defined.

(** X6, on a member of the lobby joining it once more. *)
Lemma join_respects_capacity_witness :
  ∃ σ' out r',
    step lobby (Message 1 (joinRoomMsg "1000") 20 []) = Some (σ', out)
    ∧ heap σ' !! 0%nat = Some r'
    ∧ Z.of_nat (JsMap.size (players r')) ≤ maxPlayers r'
    ∧ JsMap.size (players r')
      = (if decide ("2" ∈ JsMap.keys (players lobby_room))
         then JsMap.size (players lobby_room)
         else S (JsMap.size (players lobby_room)))
    ∧ ∀ k, k ≠ "2" →
           JsMap.get k (players r') = JsMap.get k (players lobby_room).
Proof.
  apply (join_respects_capacity lobby 1%nat (Session "2" (Some 0%nat) true)
           "1000" 20 [] 0%nat lobby_room).
  - reflexivity.
  - reflexivity.
  - vm_compute. reflexivity.
  - reflexivity.
  - reflexivity.
  - vm_compute. reflexivity.
Defined.

(** X7, on the host of the lobby creating a second room. *)
Lemma createRoom_leaves_rooms_alone_witness :
  ∃ σ' out,
    step lobby (Message 0 createRoomMsg 20 [draw_for 1001]) = Some (σ', out)
    ∧ length (heap σ') = S (length (heap lobby))
    ∧ (∀ ref r, heap lobby !! ref = Some r → heap σ' !! ref = Some r)
    ∧ (∀ c ref, rooms lobby !! c = Some ref → rooms σ' !! c = Some ref)
    ∧ (∀ conn', conn' ≠ 0%nat → sessions σ' !! conn' = sessions lobby !! conn').
Proof.
  eexists _, _. split; [vm_compute; reflexivity|].
  eapply (createRoom_leaves_rooms_alone lobby 0%nat 20 [draw_for 1001]).
  vm_compute. reflexivity.
Defined.

(** X8, on the only member of a room leaving and asking for it again. *)
Lemma last_leave_then_join_witness :
  ∃ σ' out,
    step started (Message 0 leaveRoomMsg 20 []) = Some (σ', out)
    ∧ out = [] ∧ rooms σ' !! "1000" = None
    ∧ step σ' (Message 0 (joinRoomMsg "1000") 21 [])
      = Some (σ', [(0%nat, error err_not_found)]).
Proof.
  eexists _, _. split; [vm_compute; reflexivity|].
  eapply (last_leave_then_join started 0%nat (Message 0 leaveRoomMsg 20 [])
            (Session "1" (Some 0%nat) true) 0%nat
            (Room "1000" (Some "1") 5 default_roles [("1", Player "1" 0 10)] true)
            _ _ 0%nat (Session "1" None true)).
  - left. by eexists _, _.
  - reflexivity.
  - reflexivity.
  - reflexivity.
  - reflexivity.
  - vm_compute. reflexivity.
  - reflexivity.
  - reflexivity.
Defined.

(** X9, on a member of the lobby who is not the host disconnecting. *)
Lemma departure_frame_witness :
  ∃ σ' out,
    step lobby (Close 1) = Some (σ', out)
    ∧ ∃ r', heap σ' !! 0%nat = Some r'
            ∧ code r' = code lobby_room ∧ maxPlayers r' = maxPlayers lobby_room
            ∧ roles r' = roles lobby_room ∧ gameStarted r' = gameStarted lobby_room
            ∧ (host lobby_room ≠ Some "2" → host r' = host lobby_room)
            ∧ (∀ k, k ≠ "2" →
                    JsMap.get k (players r') = JsMap.get k (players lobby_room))
            ∧ (∀ ref', ref' ≠ 0%nat → heap σ' !! ref' = heap lobby !! ref')
            ∧ (∀ c, c ≠ code lobby_room → rooms σ' !! c = rooms lobby !! c).
Proof.
  eexists _, _. split; [vm_compute; reflexivity|].
  eapply (departure_frame lobby 1%nat (Close 1)
            (Session "2" (Some 0%nat) true) 0%nat lobby_room).
  - by right.
  - reflexivity.
  - reflexivity.
  - reflexivity.
  - vm_compute. reflexivity.
Defined.

(** X10, on a host leaving three members of whom the last two joined at the
    same time, earlier than the first. *)
Lemma succession_first_among_oldest_witness :
  host (leave_room "1"
          (Room "1000" (Some "1") 5 default_roles
                [("1", Player "1" 0 10); ("2", Player "2" 1 12);
                 ("3", Player "3" 2 11); ("4", Player "4" 3 11)] false))
  = Some "3".
Proof.
  apply (succession_first_among_oldest "1" _
           [("2", Player "2" 1 12)] "3" (Player "3" 2 11) [("4", Player "4" 3 11)]).
  - reflexivity.
  - reflexivity.
  - intros q ->%list_elem_of_singleton. simpl. lia.
  - intros q ->%list_elem_of_singleton. simpl. lia.
Defined.

(** X11, on a fourth player entering the lobby and leaving it. *)
Lemma join_then_leave_restores_witness :
  ∃ σ1 out1,
    step lobby_plus (Message 3 (joinRoomMsg "1000") 20 []) = Some (σ1, out1)
    ∧ ∃ σ2 out2,
        step σ1 (Message 3 leaveRoomMsg 21 []) = Some (σ2, out2)
        ∧ heap σ2 = heap lobby_plus ∧ rooms σ2 = rooms lobby_plus.
Proof.
  eexists _, _. split; [vm_compute; reflexivity|].
  eapply (join_then_leave_restores lobby_plus 3%nat (Session "4" None true)
            "1000" 20 [] 0%nat lobby_room).
  - reflexivity.
  - reflexivity.
  - vm_compute. reflexivity.
  - reflexivity.
  - reflexivity.
  - vm_compute. reflexivity.
  - simpl. by intros [?|[?|[?|?%elem_of_nil]%elem_of_cons]%elem_of_cons]%elem_of_cons.
  - done.
  - done.
  - vm_compute. reflexivity.
Defined.

(** X12, on the run that builds the lobby. *)
Lemma run_sessions_persist_witness :
  ∃ σ' out,
    run init lobby_trace = Some (σ', out)
    ∧ playerId <$> sessions σ'
      = (playerId <$> sessions init) ++ (pretty <$> connect_times lobby_trace)
    ∧ ∀ conn s, sessions init !! conn = Some s →
        ∃ s', sessions σ' !! conn = Some s' ∧ playerId s' = playerId s
              ∧ (ws_open s = false → s' = s).
Proof.
  eexists _, _. split; [vm_compute; reflexivity|].
  eapply (run_sessions_persist init lobby_trace). vm_compute. reflexivity.
Defined.

(** X13, on a first draw that hits the code of an existing room. *)
Lemma generateRoomCode_first_free_witness :
  generateRoomCode {[ "1000" := 0%nat ]} ([0] ++ draw_for 1001 :: [7])
  = Some (code_of_draw (draw_for 1001), [7]).
Proof.
  apply (generateRoomCode_first_free {[ "1000" := 0%nat ]} [0] (draw_for 1001) [7]).
  - apply Forall_singleton. vm_compute. by eexists.
  - vm_compute. reflexivity.
Defined.

(** X14, on the registry that holds every code. *)
Lemma generateRoomCode_saturated_witness :
  generateRoomCode (rooms (State saturated_registry [] [Session "1" None true]))
                   [0; 1; 2] = None
  ∧ step (State saturated_registry [] [Session "1" None true])
         (Message 0 createRoomMsg 10 [0; 1; 2]) = None.
Proof.
  apply (generateRoomCode_saturated
           (State saturated_registry [] [Session "1" None true]) 0%nat 10 [0; 1; 2]).
  intros n Hn. exact (saturated_registry_full n Hn).
Defined.

(** X15, on the run that builds the lobby. *)
Lemma unique_ids_members_registered_witness :
  ∃ σ out,
    run init lobby_trace = Some (σ, out)
    ∧ (∀ ref r, heap σ !! ref = Some r → players r ≠ [] →
         rooms σ !! code r = Some ref)
    ∧ (∀ ref1 ref2 r1 r2,
         heap σ !! ref1 = Some r1 → heap σ !! ref2 = Some r2 →
         players r1 ≠ [] → players r2 ≠ [] → code r1 = code r2 → ref1 = ref2)
    ∧ (∀ conn s ref, sessions σ !! conn = Some s → ws_open s = true →
         currentRoom s = Some ref →
         ∃ r p, heap σ !! ref = Some r
                ∧ JsMap.get (playerId s) (players r) = Some p
                ∧ id p = playerId s ∧ ws p = conn).
Proof.
  eexists _, _. split; [vm_compute; reflexivity|].
  eapply (unique_ids_members_registered lobby_trace).
  - vm_compute. reflexivity.
  - apply (NoDup_fmap_1 (pretty : Z → string)). simpl.
    apply NoDup_cons. split; [|by apply NoDup_two].
    by intros [?|[?|?%elem_of_nil]%elem_of_cons]%elem_of_cons.
Defined.

(** X16, on two connections accepted in the same millisecond. *)
Lemma shared_id_departure_witness :
  ∃ σ' out,
    step twins (Message 0 leaveRoomMsg 20 []) = Some (σ', out)
    ∧ sessions σ' !! 1%nat = Some (Session "5" (Some 0%nat) true)
    ∧ ∃ r', heap σ' !! 0%nat = Some r'
            ∧ JsMap.get "5" (players r') = None.
Proof.
  eexists _, _. split; [vm_compute; reflexivity|].
  eapply (shared_id_departure_strands_other twins 0%nat 1%nat
            (Session "5" (Some 0%nat) true) (Session "5" (Some 0%nat) true)
            0%nat twins_room (Message 0 leaveRoomMsg 20 [])).
  - done.
  - reflexivity.
  - reflexivity.
  - reflexivity.
  - reflexivity.
  - reflexivity.
  - reflexivity.
  - by apply NoDup_two.
  - left. by eexists _, _.
  - vm_compute. reflexivity.
Defined.

(** X17, on the two players and the pool of one A and one B. *)
Lemma startGame_reveals_roles_witness :
  ∃ σ' out,
    step duo (Message 0 (startGameMsg "1") 13 [0; 0]) = Some (σ', out)
    ∧ Forall (λ wr, ∃ nm ro, wr.2 = Some nm ∧ ro ∈ roles duo_room
                             ∧ name ro = nm ∧ (0 < count ro)%nat)
             (results_of out).
Proof.
  eexists _, _. split; [vm_compute; reflexivity|].
  eapply (startGame_reveals_roles duo 0%nat (Session "1" (Some 0%nat) true)
            0%nat duo_room "1" 13 [0; 0]).
  - reflexivity.
  - reflexivity.
  - reflexivity.
  - reflexivity.
  - reflexivity.
  - reflexivity.
  - by apply NoDup_two.
  - vm_compute. lia.
  - vm_compute. reflexivity.
Defined.
